(** * go-zcashaddress: CompactSize, the Unified Address codec and the
      address dispatcher, embedded shallowly and verified.

    Source files embedded here:
    - [internal/compactsize/compactsize.go]  (module [compactsize])
    - [unifiedaddress] package               (module [unifiedaddress])
    - [zcashaddress] package                 (module [zcashaddress])

    Conventions.
    - A Go [uint64] is an [N]; the places where Go truncates ([byte(n)],
      [uint16(n)], [uint32(n)], [int(n)]) are written out.
    - A Go [[]byte] is a [list byte]; a fixed array [[20]byte] is a
      [list byte] whose length is stated by the well-formedness predicates.
    - A Go pointer field that may be nil is an [option].
    - A Go [(value, error)] return is a [result]: [Ok v] for [(v, nil)],
      [Err e] for [(zero, e)]. A run-time panic (slice or index out of
      range) is [Panicked]; [OutOfFuel] only exists for the fuel of the
      item loop and is proved unreachable.
    - A Go [map[uint64][]byte] is a [gmap N (list byte)]; a nil map and an
      empty map are both [∅]. Go's [range] over a map visits the entries in
      an unspecified order, so the encoder takes the visiting order as an
      explicit argument (any permutation of the map's entries, see
      [range_of]).
    - The packages [bech32], [base58] and [f4jumble] are other modules; they
      are operations of the class [Collaborators]. *)

From Stdlib Require Import NArith ZArith List Strings.Ascii Strings.String Strings.Byte Lia.
From stdpp Require Import base option gmap list strings sorting.

Local Open Scope N_scope.
Set Warnings "-register-all".

(** ** Errors and results *)

Inductive error : Type :=
  (* compactsize *)
  | ErrInvalidCompactSize            (* "invalid compact size encoding" *)
  | ErrExceedsMaxCompactSize         (* "number exceeds maximum compact size" *)
  (* unifiedaddress *)
  | ErrBothTransparent               (* "both P2PKH and P2SH items found in unified address" *)
  | ErrNotBech32m                    (* "unified addresses must be encoded with bech32m" *)
  | ErrInvalidHrpOrEncoding          (* "invalid HRP or encoding" *)
  | ErrInvalidDataLength             (* "invalid encoded data length" *)
  | ErrInvalidPadding                (* "invalid trailing padding" *)
  | ErrDecodingItemType (e : error)  (* "error decoding item type %w" *)
  | ErrDecodingItemData (e : error)  (* "error decoding item data %w" *)
  | ErrIncorrectItemLength (typecode : N)  (* "incorrect item length for typecode %d" *)
  | ErrInsufficientData (typecode : N)     (* "insufficient data for receiver with typecode %d" *)
  | ErrDuplicateItem (name : string)       (* "duplicate %s item detected" *)
  | ErrItemsOutOfOrder               (* "items out of order" *)
  (* zcashaddress *)
  | ErrTexLength                     (* "tex address data must be 20 bytes" *)
  | ErrSaplingLength                 (* "sapling address data must be 43 bytes" *)
  | ErrUnifiedR1                     (* "unified address revision 1 decoding not yet supported" *)
  | ErrJoin (es : list error)        (* errors.Join of the non-nil errors *)
  (* an error value made by another module *)
  | ErrCollaborator (msg : string).

Inductive result (A : Type) : Type :=
  | Ok (a : A)
  | Err (e : error)
  | Panicked
  | OutOfFuel.

Arguments Ok {A} a.
Arguments Err {A} e.
Arguments Panicked {A}.
Arguments OutOfFuel {A}.

Definition bind {A B : Type} (r : result A) (k : A → result B) : result B :=
  match r with
  | Ok a => k a
  | Err e => Err e
  | Panicked => Panicked
  | OutOfFuel => OutOfFuel
  end.

Notation "'let?' x ':=' r 'in' k" := (bind r (fun x => k))
  (at level 10, x pattern, r at level 100, k at level 200, only parsing).

#[global] Instance byte_eq_dec : EqDecision byte := Byte.byte_eq_dec.

(** ** internal/compactsize/compactsize.go *)

Module compactsize.

Definition maxCompactSize : N := 0x2000000.

(** Go's conversion [byte(n)]: the low eight bits. *)
Definition byte_of (n : N) : byte :=
  match Byte.of_N (n mod 256) with
  | Some b => b
  | None => x00
  end.

(** [binary.Write(buf, binary.LittleEndian, v)] for an unsigned [v] of
    [w] bytes: [byte(v)], [byte(v>>8)], ... *)
Fixpoint putUintLE (w : nat) (v : N) : list byte :=
  match w with
  | O => []
  | S w' => byte_of v :: putUintLE w' (N.shiftr v 8)
  end.

(** [binary.LittleEndian.UintNN(b)]: [b[0] | b[1]<<8 | ...] over the
    first [w] bytes. The callers check the length first; a missing byte
    reads as zero here. *)
Fixpoint getUintLE (w : nat) (b : list byte) : N :=
  match w with
  | O => 0
  | S w' =>
      match b with
      | [] => 0
      | x :: b' => N.lor (Byte.to_N x) (N.shiftl (getUintLE w' b') 8)
      end
  end.

Definition binaryReadUint16 (b : list byte) : N := getUintLE 2 b.
Definition binaryReadUint32 (b : list byte) : N := getUintLE 4 b.
Definition binaryReadUint64 (b : list byte) : N := getUintLE 8 b.

Definition WriteCompactSize (n : N) (allowOutOfRange : bool) : result (list byte) :=
  if negb allowOutOfRange && (maxCompactSize <? n) then
    Err ErrExceedsMaxCompactSize
  else if n <? 253 then
    Ok [byte_of n]
  else if n <=? 0xFFFF then
    Ok (xfd :: putUintLE 2 (n mod 2 ^ 16))
  else if n <=? 0xFFFFFFFF then
    Ok (xfe :: putUintLE 4 (n mod 2 ^ 32))
  else
    Ok (xff :: putUintLE 8 (n mod 2 ^ 64)).

(** The [switch b] of [ParseCompactSize]: the value and the remainder,
    before the range check. *)
Definition parseBody (rest : list byte) : result (N * list byte) :=
  match rest with
  | [] => Err ErrInvalidCompactSize
  | b :: tl =>
      if decide (b = xfd) then
        if decide (length rest < 3)%nat then Err ErrInvalidCompactSize
        else Ok (binaryReadUint16 tl, drop 3 rest)
      else if decide (b = xfe) then
        if decide (length rest < 5)%nat then Err ErrInvalidCompactSize
        else Ok (binaryReadUint32 tl, drop 5 rest)
      else if decide (b = xff) then
        if decide (length rest < 9)%nat then Err ErrInvalidCompactSize
        else Ok (binaryReadUint64 tl, drop 9 rest)
      else Ok (Byte.to_N b, tl)
  end.

Definition ParseCompactSize (rest : list byte) (allowOutOfRange : bool)
  : result (N * list byte) :=
  let? (n, rest') := parseBody rest in
  if negb allowOutOfRange && (maxCompactSize <? n) then
    Err ErrExceedsMaxCompactSize
  else Ok (n, rest').

(** The sixteen digits of [%X]. *)
Definition hexDigit (d : N) : ascii :=
  default "0"%char (list_ascii_of_string "0123456789ABCDEF" !! N.to_nat d).

(** [fmt.Sprintf("%X", b)] for a byte [b]: upper-case hexadecimal digits
    without a leading zero. *)
Definition sprintfX (b : byte) : string :=
  let n := Byte.to_N b in
  if n <? 16 then String (hexDigit n) EmptyString
  else String (hexDigit (n / 16)) (String (hexDigit (n mod 16)) EmptyString).

Definition Convert_byte_to_hex (addr : list byte) : list string :=
  foldl (λ hexes b, hexes ++ ["0x" +:+ sprintfX b]) [] addr.

End compactsize.

(** ** The collaborating modules

    [f4jumble], [bech32] and [base58] are separate modules. Their functions
    are operations of this class, typed as their Go signatures: a function
    the callers only use after testing [err == nil] is a [result]; the
    bech32 decoders and [base58.CheckDecode], whose other return values are
    read next to the error, return the whole tuple. [bech32_hrp] tells which
    prefixes the bech32 encoder writes back unchanged. *)

Inductive Version : Type := Version0 | VersionM | VersionUnknown.

#[global] Instance Version_eq_dec : EqDecision Version.
Proof. solve_decision. Defined.

Class Collaborators : Type := {
  F4Jumble : list byte → result (list byte);
  F4JumbleInv : list byte → result (list byte);
  ConvertBits : list byte → N → N → bool → result (list byte);
  EncodeM : string → list byte → result string;
  DecodeNoLimitWithVersion : string → string * list byte * Version * option error;
  DecodeGeneric : string → string * list byte * Version * option error;
  CheckDecode : string → list byte * byte * option error;
  bech32_hrp : string → bool;
}.

(** ** package unifiedaddress *)

Module unifiedaddress.
Import compactsize.

Definition P2PKHItem : N := 0x00.
Definition P2SHItem : N := 0x01.
Definition SaplingItem : N := 0x02.
Definition OrchardItem : N := 0x03.
Definition NoPreviousItem : N := 0xffffffff.

Definition getExpectedLength (itemType : N) : N :=
  if decide (itemType = P2PKHItem) then 20
  else if decide (itemType = P2SHItem) then 20
  else if decide (itemType = SaplingItem) then 43
  else if decide (itemType = OrchardItem) then 43
  else 0.

Definition getItemName (itemType : N) : string :=
  if decide (itemType = P2PKHItem ∨ itemType = P2SHItem) then "transparent"
  else if decide (itemType = SaplingItem) then "sapling"
  else if decide (itemType = OrchardItem) then "orchard"
  else "unknown".

(** [tlv]. When the second [WriteCompactSize] fails the source returns
    [nil, err] with the first (nil) error: a nil slice and no error. *)
Definition tlv (typecode : N) (value : list byte) : result (list byte) :=
  let? start := WriteCompactSize typecode true in
  let simplified := N.of_nat (length value) in
  match WriteCompactSize simplified true with
  | Ok st => Ok (start ++ st ++ value)
  | Err _ => Ok []
  | Panicked => Panicked
  | OutOfFuel => OutOfFuel
  end.

Definition padding (hrp : string) : list byte :=
  let hrpBytes := list_byte_of_string hrp in
  let padLength := (16 - Z.of_nat (length hrpBytes))%Z in
  let padLength := if (padLength <? 0)%Z then 0%Z else padLength in
  hrpBytes ++ replicate (Z.to_nat padLength) x00.

Record UnifiedAddress : Type := {
  P2pkh : option (list byte);     (* *[20]byte *)
  P2sh : option (list byte);      (* *[20]byte *)
  Sapling : option (list byte);   (* *[43]byte *)
  Orchard : option (list byte);   (* *[43]byte *)
  Unknown : gmap N (list byte);   (* map[uint64][]byte *)
}.

(** The sequences a [range] over the map [m] may produce. *)
Definition range_of (m : gmap N (list byte)) (visit : list (N * list byte)) : Prop :=
  visit ≡ₚ map_to_list m.

(** One of the four [if addr.X != nil { ... }] blocks of [EncodeUnified]. *)
Definition encodeField (itemType : N) (field : option (list byte))
    (encodedItems : list (list byte)) : result (list (list byte)) :=
  match field with
  | None => Ok encodedItems
  | Some value =>
      let? tlvVal := tlv itemType value in
      Ok (encodedItems ++ [tlvVal])
  end.

(** [for itemType, item := range addr.Unknown], over the visiting order. *)
Fixpoint encodeUnknown (visit : list (N * list byte))
    (encodedItems : list (list byte)) : result (list (list byte)) :=
  match visit with
  | [] => Ok encodedItems
  | (itemType, item) :: visit' =>
      if decide (0 < length item)%nat then
        let? tlvVal := tlv itemType item in
        encodeUnknown visit' (encodedItems ++ [tlvVal])
      else encodeUnknown visit' encodedItems
  end.

(** [EncodeUnified] up to the value of [rBytes], the buffer handed to
    [f4jumble.F4Jumble]. *)
Definition EncodeUnified_rBytes (visit : list (N * list byte))
    (addr : UnifiedAddress) (hrp : string) : result (list byte) :=
  if decide (is_Some (P2pkh addr) ∧ is_Some (P2sh addr)) then
    Err ErrBothTransparent
  else
    let encodedItems := [] in
    let? encodedItems := encodeField P2PKHItem (P2pkh addr) encodedItems in
    let? encodedItems := encodeField P2SHItem (P2sh addr) encodedItems in
    let? encodedItems := encodeField SaplingItem (Sapling addr) encodedItems in
    let? encodedItems := encodeField OrchardItem (Orchard addr) encodedItems in
    let? encodedItems := encodeUnknown visit encodedItems in
    let encodedItems := encodedItems ++ [padding hrp] in
    Ok (concat encodedItems).

(** Go's [int(itemLen)] on a 64-bit platform. *)
Definition int_of_uint64 (n : N) : Z :=
  if n <? 2 ^ 63 then Z.of_N n else (Z.of_N (n mod 2 ^ 64) - 2 ^ 64)%Z.

(** One pass through the body of [for len(rest) > 0] in [DecodeUnified]:
    the new [rest], [receivers] and [prevType]. *)
Definition decodeItem (rest : list byte) (receivers : gmap N (list byte))
    (prevType : N) : result (list byte * gmap N (list byte) * N) :=
  match ParseCompactSize rest true with
  | Err e => Err (ErrDecodingItemType e)
  | Panicked => Panicked
  | OutOfFuel => OutOfFuel
  | Ok (itemType, remaining) =>
      match ParseCompactSize remaining true with
      | Err e2 => Err (ErrDecodingItemData e2)
      | Panicked => Panicked
      | OutOfFuel => OutOfFuel
      | Ok (itemLen, remaining) =>
          let expectedLen := getExpectedLength itemType in
          if decide (0 < expectedLen ∧ itemLen ≠ expectedLen) then
            Err (ErrIncorrectItemLength itemType)
          else if decide (Z.of_nat (length remaining) < int_of_uint64 itemLen)%Z then
            Err (ErrInsufficientData itemType)
          else if decide (N.of_nat (length remaining) < itemLen) then
            Panicked (* remaining[:itemLen]: slice bounds out of range *)
          else
            let item := take (N.to_nat itemLen) remaining in
            let rest := drop (N.to_nat itemLen) remaining in
            if decide (is_Some (receivers !! itemType)) then
              Err (ErrDuplicateItem (getItemName itemType))
            else
              let receivers := <[itemType := item]> receivers in
              if decide (prevType ≠ NoPreviousItem ∧ itemType ≤ prevType) then
                Err ErrItemsOutOfOrder
              else Ok (rest, receivers, itemType)
      end
  end.

(** The loop [for len(rest) > 0]. Every pass consumes at least two bytes,
    so [length rest] passes are enough ([decodeItems_fuel]). *)
Fixpoint decodeItems (fuel : nat) (rest : list byte)
    (receivers : gmap N (list byte)) (prevType : N)
    : result (gmap N (list byte)) :=
  match rest with
  | [] => Ok receivers
  | _ :: _ =>
      match fuel with
      | O => OutOfFuel
      | S fuel' =>
          let? (rest', receivers', prevType') := decodeItem rest receivers prevType in
          decodeItems fuel' rest' receivers' prevType'
      end
  end.

(** [p := new([n]byte); copy(p[:], data)]. *)
Definition copyInto (n : nat) (data : list byte) : list byte :=
  take n data ++ replicate (n - length data) x00.

Definition emptyAddress : UnifiedAddress :=
  {| P2pkh := None; P2sh := None; Sapling := None; Orchard := None; Unknown := ∅ |}.

(** The [switch itemType] that fills [result] from one receiver. *)
Definition bucket (result : UnifiedAddress) (entry : N * list byte) : UnifiedAddress :=
  let '(itemType, data) := entry in
  if decide (itemType = P2PKHItem) then
    {| P2pkh := Some (copyInto 20 data); P2sh := P2sh result;
       Sapling := Sapling result; Orchard := Orchard result; Unknown := Unknown result |}
  else if decide (itemType = P2SHItem) then
    {| P2pkh := P2pkh result; P2sh := Some (copyInto 20 data);
       Sapling := Sapling result; Orchard := Orchard result; Unknown := Unknown result |}
  else if decide (itemType = SaplingItem) then
    {| P2pkh := P2pkh result; P2sh := P2sh result;
       Sapling := Some (copyInto 43 data); Orchard := Orchard result; Unknown := Unknown result |}
  else if decide (itemType = OrchardItem) then
    {| P2pkh := P2pkh result; P2sh := P2sh result;
       Sapling := Sapling result; Orchard := Some (copyInto 43 data); Unknown := Unknown result |}
  else
    {| P2pkh := P2pkh result; P2sh := P2sh result;
       Sapling := Sapling result; Orchard := Orchard result;
       Unknown := <[itemType := data]> (Unknown result) |}.

(** [for itemType, data := range receivers { switch ... }] over a visiting
    order of [receivers]. *)
Definition bucketAll (visit : list (N * list byte)) : UnifiedAddress :=
  foldl bucket emptyAddress visit.

(** [DecodeUnified] from the value of [decoded], the output of
    [f4jumble.F4JumbleInv], on. The result does not depend on the order in
    which the last [range] visits [receivers] ([bucketAll_range]); the
    order of [map_to_list] is taken. *)
Definition DecodeUnified_decoded (decoded : list byte) (expectedHrp : string)
    : result UnifiedAddress :=
  if decide (length decoded < 16)%nat then
    Panicked (* decoded[len(decoded)-16:]: slice bounds out of range *)
  else
    let suffix := drop (length decoded - 16) decoded in
    if decide (suffix ≠ padding expectedHrp) then Err ErrInvalidPadding
    else
      let rest := take (length decoded - 16) decoded in
      let? receivers := decodeItems (length rest) rest ∅ NoPreviousItem in
      Ok (bucketAll (map_to_list receivers)).

Section with_collaborators.
Context {C : Collaborators}.

Definition EncodeUnified (visit : list (N * list byte))
    (addr : UnifiedAddress) (hrp : string) : result string :=
  let? rBytes := EncodeUnified_rBytes visit addr hrp in
  let? jumbledBytes := F4Jumble rBytes in
  let? converted := ConvertBits jumbledBytes 8 5 true in
  let? encoded := EncodeM hrp converted in
  Ok encoded.

Definition DecodeUnified (encoded expectedHrp : string) : result UnifiedAddress :=
  let '(hrp, data, version, encoding) := DecodeNoLimitWithVersion encoded in
  if decide (version ≠ VersionM) then Err ErrNotBech32m
  else if decide (hrp ≠ expectedHrp ∨ is_Some encoding) then
    Err ErrInvalidHrpOrEncoding
  else if decide (length data < 48)%nat then Err ErrInvalidDataLength
  else
    let? convertedBits := ConvertBits data 5 8 false in
    let? decoded := F4JumbleInv convertedBits in
    DecodeUnified_decoded decoded expectedHrp.

End with_collaborators.

End unifiedaddress.

(** ** package zcashaddress *)

Module zcashaddress.
Import unifiedaddress.

Record ZcashAddress : Type := {
  P2pkh : option (list byte);          (* *[20]byte *)
  P2sh : option (list byte);           (* *[20]byte *)
  Sapling : option (list byte);        (* *[43]byte *)
  Unified : option UnifiedAddress;     (* *unifiedaddress.UnifiedAddress *)
  Tex : option (list byte);            (* *[20]byte *)
}.

Record Network : Type := {
  p2pkhLead : byte * byte;
  p2shLead : byte * byte;
  texHRP : string;
  saplingHRP : string;
  unifiedHRP : string;
  unifiedR1HRP : string;
}.

Definition Mainnet : Network :=
  {| p2pkhLead := (x1c, xb8); p2shLead := (x1c, xbd); texHRP := "tex";
     saplingHRP := "zs"; unifiedHRP := "u"; unifiedR1HRP := "ur" |}.

Definition Testnet : Network :=
  {| p2pkhLead := (x1d, x25); p2shLead := (x1c, xba); texHRP := "textest";
     saplingHRP := "ztestsapling"; unifiedHRP := "utest"; unifiedR1HRP := "urtest" |}.

Definition Regtest : Network :=
  {| p2pkhLead := (x1c, x25); p2shLead := (x1c, xba); texHRP := "texregtest";
     saplingHRP := "zregtestsapling"; unifiedHRP := "uregtest";
     unifiedR1HRP := "urregtest" |}.

(** The zero value of the named return [result]. *)
Definition zeroAddress : ZcashAddress :=
  {| P2pkh := None; P2sh := None; Sapling := None; Unified := None; Tex := None |}.

(** [errors.Join]: the nil errors are dropped. *)
Definition errorsJoin (errs : list (option error)) : error :=
  ErrJoin (omap id errs).

(** [base58Version == lead[0] && decoded[0] == lead[1] && len(decoded) == 21],
    evaluated left to right; [decoded[0]] panics on an empty slice. *)
Definition leadMatches (base58Version : byte) (decoded : list byte)
    (lead : byte * byte) : result bool :=
  if decide (base58Version = lead.1) then
    match decoded with
    | [] => Panicked
    | d0 :: _ => Ok (bool_decide (d0 = lead.2) && bool_decide (length decoded = 21%nat))
    end
  else Ok false.

Section with_collaborators.
Context {C : Collaborators}.

(** [DecodeAddress] returns the pair [(result, err)]; it is [Ok (result, err)]
    here, with [err = None] for nil, so that the struct returned next to
    an error is visible. *)
Definition DecodeAddress (address : string) (network : Network)
    : result (ZcashAddress * option error)%type :=
  let result_ := zeroAddress in (* the named return [result] *)
  let '(decoded, base58Version, base58Error) := CheckDecode address in
  let '(humanReadablePrefix, bech32m_decoded_address, bech32Version, bech32Error) :=
    DecodeGeneric address in
  (* attempt to decode as unified addresses *)
  let unifiedStage : result (ZcashAddress * option error)%type :=
    match DecodeUnified address (unifiedHRP network) with
    | Ok unified =>
        Ok ({| P2pkh := None; P2sh := None; Sapling := None;
               Unified := Some unified; Tex := None |}, None)
    | Err unifiedDecodedErr =>
        Ok (result_, Some (errorsJoin [base58Error; bech32Error; Some unifiedDecodedErr]))
    | Panicked => Panicked
    | OutOfFuel => OutOfFuel
    end in
  (* bech32 / bech32m decoding *)
  let bech32Stage : result (ZcashAddress * option error)%type :=
    match bech32Error with
    | Some _ => unifiedStage
    | None =>
        if decide (bech32Version = VersionM) then
          if decide (humanReadablePrefix = texHRP network) then
            match ConvertBits bech32m_decoded_address 5 8 true with
            | Ok conv =>
                if decide (length conv = 20%nat) then
                  Ok ({| P2pkh := None; P2sh := None; Sapling := None;
                         Unified := None; Tex := Some (copyInto 20 conv) |}, None)
                else Ok (result_, Some ErrTexLength)
            | Err err => Ok (result_, Some err)
            | Panicked => Panicked
            | OutOfFuel => OutOfFuel
            end
          else if decide (humanReadablePrefix = unifiedR1HRP network) then
            Ok (result_, Some ErrUnifiedR1)
          else unifiedStage
        else if decide (bech32Version = Version0) then
          if decide (humanReadablePrefix = saplingHRP network) then
            match ConvertBits bech32m_decoded_address 5 8 true with
            | Ok data =>
                if decide (length data = 43%nat) then
                  Ok ({| P2pkh := None; P2sh := None;
                         Sapling := Some (copyInto 43 data);
                         Unified := None; Tex := None |}, None)
                else Ok (result_, Some ErrSaplingLength)
            | Err err => Ok (result_, Some err)
            | Panicked => Panicked
            | OutOfFuel => OutOfFuel
            end
          else unifiedStage
        else unifiedStage
    end in
  (* base58 decoding *)
  match base58Error with
  | Some _ => bech32Stage
  | None =>
      let? isP2pkh := leadMatches base58Version decoded (p2pkhLead network) in
      if isP2pkh then
        Ok ({| P2pkh := Some (copyInto 20 (drop 1 decoded)); P2sh := None;
               Sapling := None; Unified := None; Tex := None |}, None)
      else
        let? isP2sh := leadMatches base58Version decoded (p2shLead network) in
        if isP2sh then
          Ok ({| P2pkh := None; P2sh := Some (copyInto 20 (drop 1 decoded));
                 Sapling := None; Unified := None; Tex := None |}, None)
        else bech32Stage
  end.

(** The accessors return [(pointer, err)]: [Ok (pointer, err)] here. *)
Definition DecodeP2pkh (address : string) (network : Network) (allowTex : bool)
    : result (option (list byte) * option error)%type :=
  let? (decoded, err) := DecodeAddress address network in
  match err with
  | Some e => Ok (None, Some e)
  | None =>
      match P2pkh decoded with
      | Some p => Ok (Some p, None)
      | None =>
          match Unified decoded with
          | Some u => Ok (unifiedaddress.P2pkh u, None)
          | None =>
              match Tex decoded with
              | Some t => if allowTex then Ok (Some t, None) else Ok (None, None)
              | None => Ok (None, None)
              end
          end
      end
  end.

Definition DecodeP2sh (address : string) (network : Network)
    : result (option (list byte) * option error)%type :=
  let? (decoded, err) := DecodeAddress address network in
  match err with
  | Some e => Ok (None, Some e)
  | None =>
      match P2sh decoded with
      | Some p => Ok (Some p, None)
      | None =>
          match Unified decoded with
          | Some u => Ok (unifiedaddress.P2sh u, None)
          | None => Ok (None, None)
          end
      end
  end.

Definition DecodeSapling (address : string) (network : Network)
    : result (option (list byte) * option error)%type :=
  let? (decoded, err) := DecodeAddress address network in
  match err with
  | Some e => Ok (None, Some e)
  | None =>
      match Sapling decoded with
      | Some p => Ok (Some p, None)
      | None =>
          match Unified decoded with
          | Some u => Ok (unifiedaddress.Sapling u, None)
          | None => Ok (None, None)
          end
      end
  end.

Definition DecodeOrchard (address : string) (network : Network)
    : result (option (list byte) * option error)%type :=
  let? (decoded, err) := DecodeAddress address network in
  match err with
  | Some e => Ok (None, Some e)
  | None =>
      match Unified decoded with
      | Some u => Ok (unifiedaddress.Orchard u, None)
      | None => Ok (None, None)
      end
  end.

End with_collaborators.

End zcashaddress.

(** ** What the codec relies on from its collaborators

    [f4jumble] is an invertible, length-preserving transform that accepts
    messages of 48 to 4194368 bytes; regrouping eight-bit bytes into padded
    five-bit groups is undone by regrouping without padding and does not
    shorten the data; a bech32m string written for an accepted prefix
    decodes to the same prefix and data, with the bech32m version. *)

Class CollaboratorContracts (C : Collaborators) : Prop := {
  F4Jumble_accepts : ∀ m : list byte,
    48 ≤ N.of_nat (length m) ≤ 4194368 → ∃ j, F4Jumble m = Ok j;
  F4Jumble_inverse : ∀ m j : list byte,
    F4Jumble m = Ok j → F4JumbleInv j = Ok m ∧ length j = length m;
  ConvertBits_8_5 : ∀ j : list byte,
    ∃ d, ConvertBits j 8 5 true = Ok d ∧ ConvertBits d 5 8 false = Ok j
         ∧ (length j ≤ length d)%nat;
  EncodeM_decodes : ∀ (hrp : string) (j d : list byte),
    bech32_hrp hrp = true → ConvertBits j 8 5 true = Ok d →
    ∃ s, EncodeM hrp d = Ok s
         ∧ DecodeNoLimitWithVersion s = (hrp, d, VersionM, None);
}.

(** ** A small instance of the collaborators

    Simple stand-ins with the shape of the real modules, used to run the
    codec on concrete inputs: the jumble reverses the message, a byte is
    regrouped into its high three and low five bits, and a bech32 string is
    the prefix, the separator ["1"], the data in the bech32 alphabet and a
    final letter for the checksum variant (["M"] for bech32m, ["B"] for
    bech32). The base58check stand-in reads the bytes of the string as the
    decoded bytes and ["~~~~"] as a valid checksum. *)

Module simple.
Import compactsize.

Definition jumbleLength (m : list byte) : bool :=
  (48 <=? N.of_nat (length m)) && (N.of_nat (length m) <=? 4194368).

Definition F4Jumble (m : list byte) : result (list byte) :=
  if jumbleLength m then Ok (rev m)
  else Err (ErrCollaborator "f4jumble: invalid message length").

Definition split5 (b : byte) : list byte :=
  [byte_of (Byte.to_N b / 32); byte_of (Byte.to_N b mod 32)].

Fixpoint join5 (pad : bool) (d : list byte) : result (list byte) :=
  match d with
  | [] => Ok []
  | [h] =>
      if pad then Ok [byte_of (Byte.to_N h * 32)]
      else Err (ErrCollaborator "bech32: invalid incomplete group")
  | h :: l :: d' =>
      let? r := join5 pad d' in
      Ok (byte_of (Byte.to_N h * 32 + Byte.to_N l) :: r)
  end.

Definition ConvertBits (data : list byte) (fromBits toBits : N) (pad : bool)
    : result (list byte) :=
  if decide (fromBits = 8 ∧ toBits = 5) then Ok (flat_map split5 data)
  else if decide (fromBits = 5 ∧ toBits = 8) then join5 pad data
  else Err (ErrCollaborator "bech32: invalid bit groups").

Definition charset : list ascii :=
  list_ascii_of_string "qpzry9x8gf2tvdw0s3jn54khce6mua7l".

Definition char_of (v : byte) : option ascii :=
  charset !! N.to_nat (Byte.to_N v).

Fixpoint index_in (c : ascii) (cs : list ascii) (i : N) : option byte :=
  match cs with
  | [] => None
  | c' :: cs' => if decide (c = c') then Some (byte_of i) else index_in c cs' (i + 1)
  end.

Definition value_of (c : ascii) : option byte := index_in c charset 0.

Fixpoint encode_chars (tag : ascii) (data : list byte) : option string :=
  match data with
  | [] => Some (String tag EmptyString)
  | v :: data' =>
      c ← char_of v; s ← encode_chars tag data'; Some (String c s)
  end.

Definition has_separator (hrp : string) : bool :=
  bool_decide (Exists (λ c, c = "1"%char) (list_ascii_of_string hrp)).

Definition bech32_hrp (hrp : string) : bool :=
  negb (bool_decide (hrp = EmptyString)) && negb (has_separator hrp).

Definition EncodeM (hrp : string) (data : list byte) : result string :=
  match encode_chars "M" data with
  | Some s => Ok (hrp +:+ String "1" s)
  | None => Err (ErrCollaborator "bech32: invalid data byte")
  end.

(** The data part of a string: the values of its characters and the
    version named by its last character. *)
Fixpoint decode_chars (s : string) : option (list byte * Version) :=
  match s with
  | EmptyString => None
  | String c EmptyString =>
      if decide (c = "M"%char) then Some ([], VersionM)
      else if decide (c = "B"%char) then Some ([], Version0)
      else None
  | String c s' =>
      v ← value_of c; '(d, ver) ← decode_chars s'; Some (v :: d, ver)
  end.

(** Splits at the first separator. *)
Fixpoint decode_string (s : string) : option (string * list byte * Version) :=
  match s with
  | EmptyString => None
  | String c s' =>
      if decide (c = "1"%char) then
        '(d, ver) ← decode_chars s'; Some (EmptyString, d, ver)
      else
        '(hrp, d, ver) ← decode_string s'; Some (String c hrp, d, ver)
  end.

Definition DecodeGeneric (s : string) : string * list byte * Version * option error :=
  match decode_string s with
  | Some (hrp, d, ver) =>
      if decide (hrp = EmptyString) then
        (EmptyString, [], VersionUnknown, Some (ErrCollaborator "bech32: invalid prefix"))
      else (hrp, d, ver, None)
  | None =>
      (EmptyString, [], VersionUnknown, Some (ErrCollaborator "bech32: invalid string"))
  end.

Definition CheckDecode (s : string) : list byte * byte * option error :=
  let decoded := list_byte_of_string s in
  match decoded with
  | version :: tl =>
      if decide (4 ≤ length tl)%nat then
        if decide (drop (length tl - 4) tl = [x7e; x7e; x7e; x7e]) then
          (take (length tl - 4) tl, version, None)
        else ([], x00, Some (ErrCollaborator "base58: checksum error"))
      else ([], x00, Some (ErrCollaborator "base58: invalid format"))
  | [] => ([], x00, Some (ErrCollaborator "base58: invalid format"))
  end.

(** In the order of the fields of [Collaborators]; the jumble is its own
    inverse and both bech32 decoders are [DecodeGeneric]. *)
Definition collaborators : Collaborators :=
  Build_Collaborators F4Jumble F4Jumble ConvertBits EncodeM
    DecodeGeneric DecodeGeneric CheckDecode bech32_hrp.

End simple.

(** ** Definitions used to state the properties *)

(** [payload] holds [n] as a little-endian value of [w] bytes: byte [i] is
    digit [i] of [n] in base 256. *)
Definition little_endian (w : nat) (n : N) (payload : list byte) : Prop :=
  length payload = w ∧
  ∀ i, (i < w)%nat →
    Byte.to_N <$> payload !! i = Some ((n / 256 ^ N.of_nat i) mod 256).

(** [n] is written, and parsed back with nothing left. *)
Definition writes_and_parses (allowU64 : bool) (n : N) : Prop :=
  ∃ encoding, compactsize.WriteCompactSize n allowU64 = Ok encoding
              ∧ compactsize.ParseCompactSize encoding allowU64 = Ok (n, []).

Section unifiedaddress_definitions.
Import compactsize unifiedaddress.

(** What the Go types guarantee of a [UnifiedAddress]: the fixed arrays
    have 20 and 43 bytes, the keys are [uint64] and the length of a slice
    is a non-negative [int]. *)
Definition wf_UnifiedAddress (a : UnifiedAddress) : Prop :=
  (∀ p, P2pkh a = Some p → length p = 20%nat) ∧
  (∀ p, P2sh a = Some p → length p = 20%nat) ∧
  (∀ p, Sapling a = Some p → length p = 43%nat) ∧
  (∀ p, Orchard a = Some p → length p = 43%nat) ∧
  map_Forall (λ k v, k < 2 ^ 64 ∧ N.of_nat (length v) < 2 ^ 63) (Unknown a).

(** Well-formed [Unknown] entries: the typecode is none of the four known
    ones and the payload is not empty. *)
Definition wf_Unknown (a : UnifiedAddress) : Prop :=
  map_Forall (λ k v, 4 ≤ k ∧ v ≠ []) (Unknown a).

(** A visiting order with strictly ascending typecodes. *)
Definition ascending (visit : list (N * list byte)) : Prop :=
  StronglySorted N.lt visit.*1.

(** The bytes [WriteCompactSize(n, true)] returns. *)
Definition compactSizeBytes (n : N) : list byte :=
  match WriteCompactSize n true with
  | Ok bs => bs
  | _ => []
  end.

(** The wire form of one item: typecode, length, payload. *)
Definition itemBytes (item : N * list byte) : list byte :=
  compactSizeBytes item.1 ++ compactSizeBytes (N.of_nat (length item.2)) ++ item.2.

Definition fieldItem (itemType : N) (field : option (list byte))
    : list (N * list byte) :=
  match field with
  | Some value => [(itemType, value)]
  | None => []
  end.

Definition nonEmpty (entry : N * list byte) : Prop := entry.2 ≠ [].

(** The items [EncodeUnified] emits, in order, when its [range] visits
    [addr.Unknown] in the order [visit]. *)
Definition emittedItems (visit : list (N * list byte)) (addr : UnifiedAddress)
    : list (N * list byte) :=
  fieldItem P2PKHItem (P2pkh addr) ++ fieldItem P2SHItem (P2sh addr)
  ++ fieldItem SaplingItem (Sapling addr) ++ fieldItem OrchardItem (Orchard addr)
  ++ filter nonEmpty visit.

(** The checks of the decoding loop on one parsed item. *)
Definition checkItem (item : N * list byte) (receivers : gmap N (list byte))
    (prevType : N) : result (gmap N (list byte) * N) :=
  let '(itemType, value) := item in
  let expectedLen := getExpectedLength itemType in
  if decide (0 < expectedLen ∧ N.of_nat (length value) ≠ expectedLen) then
    Err (ErrIncorrectItemLength itemType)
  else if decide (is_Some (receivers !! itemType)) then
    Err (ErrDuplicateItem (getItemName itemType))
  else if decide (prevType ≠ NoPreviousItem ∧ itemType ≤ prevType) then
    Err ErrItemsOutOfOrder
  else Ok (<[itemType := value]> receivers, itemType).

(** The decoding loop over a sequence of parsed items. *)
Fixpoint checkItems (items : list (N * list byte))
    (receivers : gmap N (list byte)) (prevType : N)
    : result (gmap N (list byte)) :=
  match items with
  | [] => Ok receivers
  | item :: items' =>
      let? (receivers', prevType') := checkItem item receivers prevType in
      checkItems items' receivers' prevType'
  end.

(** [addr] without the [Unknown] entries whose payload is empty. *)
Definition withoutEmptyUnknown (addr : UnifiedAddress) : UnifiedAddress :=
  {| P2pkh := P2pkh addr; P2sh := P2sh addr; Sapling := Sapling addr;
     Orchard := Orchard addr; Unknown := filter nonEmpty (Unknown addr) |}.

(** The typed item [(itemType, value)] fits the wire format. *)
Definition typedItem (item : N * list byte) : Prop :=
  item.1 < 2 ^ 64 ∧ N.of_nat (length item.2) < 2 ^ 63.

End unifiedaddress_definitions.

Section receivers_definitions.
Import unifiedaddress.

(** The typecode of the entry is none of the four known ones. *)
Definition unknownType (entry : N * list byte) : Prop :=
  entry.1 ≠ P2PKHItem ∧ entry.1 ≠ P2SHItem
  ∧ entry.1 ≠ SaplingItem ∧ entry.1 ≠ OrchardItem.

#[global] Instance unknownType_dec (entry : N * list byte) : Decision (unknownType entry).
Proof. unfold unknownType. apply _. Defined.

(** The address a map of receivers stands for. *)
Definition addressOf (receivers : gmap N (list byte)) : UnifiedAddress :=
  {| P2pkh := copyInto 20 <$> receivers !! P2PKHItem;
     P2sh := copyInto 20 <$> receivers !! P2SHItem;
     Sapling := copyInto 43 <$> receivers !! SaplingItem;
     Orchard := copyInto 43 <$> receivers !! OrchardItem;
     Unknown := filter unknownType receivers |}.

(** The payload of a known item has the length the decoder expects. *)
Definition expectedLength (item : N * list byte) : Prop :=
  getExpectedLength item.1 = 0 ∨ N.of_nat (length item.2) = getExpectedLength item.1.

End receivers_definitions.

(** ** Concrete addresses *)

Module examples.
Import unifiedaddress.

Definition pkh20 : list byte := replicate 20 x33.
Definition sapling43 : list byte := replicate 43 x11.
Definition orchard43 : list byte := replicate 43 x22.

(** Only a Sapling receiver. *)
Definition saplingOnly : UnifiedAddress :=
  {| P2pkh := None; P2sh := None; Sapling := Some sapling43; Orchard := None;
     Unknown := ∅ |}.

(** Three known receivers and two unknown items, typecodes 4 and 5. *)
Definition twoUnknown : UnifiedAddress :=
  {| P2pkh := Some pkh20; P2sh := None; Sapling := Some sapling43;
     Orchard := Some orchard43;
     Unknown := <[5 := [x01]]> (<[4 := [x02]]> ∅) |}.

Definition visitUp : list (N * list byte) := [(4, [x02]); (5, [x01])].
Definition visitDown : list (N * list byte) := [(5, [x01]); (4, [x02])].

(** A Sapling receiver and an unknown item with an empty payload. *)
Definition emptyUnknown : UnifiedAddress :=
  {| P2pkh := None; P2sh := None; Sapling := Some sapling43; Orchard := None;
     Unknown := <[7 := []]> (<[6 := [x09]]> ∅) |}.

(** A prefix of 20 bytes. *)
Definition longHrp : string := "unifiedaddressprefix".

(** A jumbled-back buffer: a Sapling item, an item of typecode
    [0xffffffff], an item of typecode 5, and the padding of ["u"]. *)
Definition sentinelBuffer : list byte :=
  [x02; x2b] ++ sapling43 ++ [xfe; xff; xff; xff; xff; x01; xaa]
  ++ [x05; x01; xbb] ++ padding "u".

Definition sentinelAddress : UnifiedAddress :=
  {| P2pkh := None; P2sh := None; Sapling := Some sapling43; Orchard := None;
     Unknown := <[5 := [xbb]]> (<[0xffffffff := [xaa]]> ∅) |}.

End examples.

Section zcashaddress_definitions.
Import zcashaddress.

(** The number of non-nil fields of a [ZcashAddress]. *)
Definition fieldsSet (r : ZcashAddress) : nat :=
  (if P2pkh r is Some _ then 1 else 0) + (if P2sh r is Some _ then 1 else 0)
  + (if Sapling r is Some _ then 1 else 0) + (if Unified r is Some _ then 1 else 0)
  + (if Tex r is Some _ then 1 else 0).

Definition allNil (r : ZcashAddress) : Prop :=
  P2pkh r = None ∧ P2sh r = None ∧ Sapling r = None ∧ Unified r = None
  ∧ Tex r = None.

(** What every return of [DecodeAddress] satisfies: with an error, the
    zero value of the struct; without one, exactly one field set. *)
Definition returnsOne (x : result (ZcashAddress * option error)%type) : Prop :=
  ∀ r e, x = Ok (r, e) →
    (is_Some e ∧ r = zeroAddress) ∨ (e = None ∧ fieldsSet r = 1%nat).

End zcashaddress_definitions.

(** A TEX address of the main network for the small instance of the
    collaborators: the prefix ["tex"] and the 20 bytes of [examples.pkh20]. *)
Definition texString : string := "tex1pnpnpnpnpnpnpnpnpnpnpnpnpnpnpnpnpnpnpnpnM".

Definition texAddress : zcashaddress.ZcashAddress :=
  {| zcashaddress.P2pkh := None; zcashaddress.P2sh := None;
     zcashaddress.Sapling := None; zcashaddress.Unified := None;
     zcashaddress.Tex := Some examples.pkh20 |}.

(** ** Definitions used to state further properties *)

(** The value of a hexadecimal digit, upper case. *)
Definition hexValue (c : ascii) : option N :=
  (λ p, N.of_nat p.1) <$>
    list_find (λ c', c' = c) (list_ascii_of_string "0123456789ABCDEF").

(** The byte a string written by [Convert_byte_to_hex] stands for. *)
Definition parseHex (s : string) : option byte :=
  match s with
  | String "0" (String "x" (String c EmptyString)) =>
      v ← hexValue c; Byte.of_N v
  | String "0" (String "x" (String c1 (String c2 EmptyString))) =>
      v1 ← hexValue c1; v2 ← hexValue c2; Byte.of_N (16 * v1 + v2)
  | _ => None
  end.

(** What the decoding loop keeps of every receiver it has stored, in a
    buffer of at most [bound] bytes: the typecode is a [uint64], the
    payload is part of the buffer, and a known typecode has the payload
    length the decoder expects. *)
Definition storedItem (bound : nat) (k : N) (v : list byte) : Prop :=
  k < 2 ^ 64 ∧ (length v ≤ bound)%nat
  ∧ (unifiedaddress.getExpectedLength k = 0
     ∨ N.of_nat (length v) = unifiedaddress.getExpectedLength k).

(** A buffer whose only item, of typecode 4, announces 2^63 bytes of
    payload. *)
Definition hugeItemBuffer (hrp : string) : list byte :=
  [x04] ++ [xff; x00; x00; x00; x00; x00; x00; x00; x80] ++ replicate 32 x00
  ++ unifiedaddress.padding hrp.

(** The constructors of [ZcashAddress] in package zcashaddress: in Go the
    functions [P2pkh], [P2sh], [Sapling], [Tex] and [Unified] live beside
    the fields of the same names. *)
Module constructors.

Definition P2pkh (data : list byte) : zcashaddress.ZcashAddress :=
  {| zcashaddress.P2pkh := Some data; zcashaddress.P2sh := None;
     zcashaddress.Sapling := None; zcashaddress.Unified := None;
     zcashaddress.Tex := None |}.

Definition P2sh (data : list byte) : zcashaddress.ZcashAddress :=
  {| zcashaddress.P2pkh := None; zcashaddress.P2sh := Some data;
     zcashaddress.Sapling := None; zcashaddress.Unified := None;
     zcashaddress.Tex := None |}.

Definition Sapling (data : list byte) : zcashaddress.ZcashAddress :=
  {| zcashaddress.P2pkh := None; zcashaddress.P2sh := None;
     zcashaddress.Sapling := Some data; zcashaddress.Unified := None;
     zcashaddress.Tex := None |}.

Definition Tex (data : list byte) : zcashaddress.ZcashAddress :=
  {| zcashaddress.P2pkh := None; zcashaddress.P2sh := None;
     zcashaddress.Sapling := None; zcashaddress.Unified := None;
     zcashaddress.Tex := Some data |}.

Definition Unified (data : unifiedaddress.UnifiedAddress)
    : zcashaddress.ZcashAddress :=
  {| zcashaddress.P2pkh := None; zcashaddress.P2sh := None;
     zcashaddress.Sapling := None; zcashaddress.Unified := Some data;
     zcashaddress.Tex := None |}.

End constructors.

Section dispatcher_definitions.
Import zcashaddress.
Context {C : Collaborators}.

(** base58check decoding of [address] succeeds with the version byte
    [lead.1] and a payload of 21 bytes: the byte [lead.2] and the 20 bytes
    [p]. *)
Definition base58Payload (address : string) (lead : byte * byte)
    (p : list byte) : Prop :=
  CheckDecode address = (lead.2 :: p, lead.1, None) ∧ length p = 20%nat.

(** The bech32 decoding of [address] leaves it to the unified stage of
    [DecodeAddress]: it fails, or its version and prefix select none of
    the TEX, revision 1 and Sapling branches. *)
Definition bech32Passes (address : string) (network : Network) : Prop :=
  let '(hrp, _, version, err) := DecodeGeneric address in
  is_Some err
  ∨ (version = VersionM ∧ hrp ≠ texHRP network ∧ hrp ≠ unifiedR1HRP network)
  ∨ (version = Version0 ∧ hrp ≠ saplingHRP network)
  ∨ (version ≠ VersionM ∧ version ≠ Version0).

End dispatcher_definitions.

(** For the small instance of the collaborators: a base58check string
    with the version byte [0x1c] and an empty payload; a P2SH address of
    the test network; the unified address of [examples.saplingOnly] on the
    main network. *)
Definition emptyPayloadString : string :=
  string_of_list_byte [x1c; x7e; x7e; x7e; x7e].

Definition testnetP2shString : string :=
  string_of_list_byte ([x1c; xba] ++ replicate 20 x33 ++ [x7e; x7e; x7e; x7e]).

Definition saplingOnlyString : string :=
  Eval vm_compute in
    match unifiedaddress.EncodeUnified (C := simple.collaborators) []
            examples.saplingOnly "u" with
    | Ok s => s
    | _ => EmptyString
    end.

(** * Properties *)

(** ** CompactSize *)

Section compactsize_facts.
Import compactsize.

Lemma to_N_byte_of (n : N) : Byte.to_N (byte_of n) = n mod 256.
Proof.
  unfold byte_of. destruct (Byte.of_N (n mod 256)) as [b|] eqn:E.
  - by apply Byte.to_of_N.
  - apply Byte.of_N_None_iff in E.
    pose proof (N.mod_upper_bound n 256). lia.
Qed.

Lemma pow256_S (i : nat) : 256 ^ N.of_nat (S i) = 256 * 256 ^ N.of_nat i.
Proof. rewrite Nat2N.inj_succ. apply N.pow_succ_r'. Qed.

Lemma length_putUintLE (w : nat) (v : N) : length (putUintLE w v) = w.
Proof. revert v. induction w as [|w IH]; intros v; simpl; [done|]. by rewrite IH. Qed.

Lemma lookup_putUintLE (w : nat) (v : N) (i : nat) :
  (i < w)%nat →
  putUintLE w v !! i = Some (byte_of (v / 256 ^ N.of_nat i)).
Proof.
  revert v i. induction w as [|w IH]; intros v i Hi; [lia|].
  destruct i as [|i]; simpl.
  - by rewrite N.div_1_r.
  - rewrite IH by lia. f_equal. f_equal.
    rewrite N.shiftr_div_pow2. change (2 ^ 8) with 256.
    rewrite N.Div0.div_div. f_equal.
    change (N.pos (Pos.of_succ_nat i)) with (N.of_nat (S i)).
    by rewrite pow256_S.
Qed.

Lemma lor_shiftl_8 (a b : N) : a < 256 → N.lor a (N.shiftl b 8) = a + 256 * b.
Proof.
  intros Ha.
  assert (Hdisj : N.land a (N.shiftl b 8) = 0).
  { apply N.bits_inj_0. intros k. rewrite N.land_spec.
    destruct (decide (k < 8)).
    - rewrite N.shiftl_spec_low by done. apply andb_false_r.
    - rewrite <- (N.mod_small a (2 ^ 8)) by done.
      by rewrite N.mod_pow2_bits_high by lia. }
  rewrite <- N.lxor_lor, <- N.add_nocarry_lxor by done.
  rewrite N.shiftl_mul_pow2. change (2 ^ 8) with 256. lia.
Qed.

Lemma getUintLE_putUintLE (w : nat) (v : N) (tl : list byte) :
  getUintLE w (putUintLE w v ++ tl) = v mod 256 ^ N.of_nat w.
Proof.
  revert v. induction w as [|w IH]; intros v.
  - simpl. by rewrite N.mod_1_r.
  - cbn [putUintLE getUintLE app]. rewrite IH, to_N_byte_of.
    rewrite lor_shiftl_8 by (apply N.mod_upper_bound; lia).
    rewrite N.shiftr_div_pow2. change (2 ^ 8) with 256.
    rewrite pow256_S. by rewrite N.Div0.mod_mul_r.
Qed.

End compactsize_facts.

Section compactsize_roundtrip.
Import compactsize.

(** With the extended range allowed, writing never fails. *)
Lemma WriteCompactSize_true (n : N) :
  ∃ bs, WriteCompactSize n true = Ok bs ∧ (1 ≤ length bs)%nat.
Proof.
  unfold WriteCompactSize. simpl.
  repeat case_match; eexists; (split; [done|simpl; lia]).
Qed.

Lemma drop_putUintLE (w : nat) (v : N) (tl : list byte) :
  drop w (putUintLE w v ++ tl) = tl.
Proof. apply drop_app_length'. symmetry. apply length_putUintLE. Qed.

Lemma parseBody_marker (w : nat) (m : byte) (v : N) (tl : list byte) :
  (m = xfd ∧ w = 2%nat) ∨ (m = xfe ∧ w = 4%nat) ∨ (m = xff ∧ w = 8%nat) →
  parseBody (m :: putUintLE w v ++ tl) = Ok (v mod 256 ^ N.of_nat w, tl).
Proof.
  intros Hm. unfold parseBody.
  assert (Hlen : length (m :: putUintLE w v ++ tl) = S (w + length tl))
    by (cbn [length]; by rewrite length_app, length_putUintLE).
  rewrite Hlen.
  unfold binaryReadUint16, binaryReadUint32, binaryReadUint64.
  destruct Hm as [[-> ->]|[[-> ->]|[-> ->]]];
    repeat (case_decide; try done; try lia);
    rewrite getUintLE_putUintLE; do 2 f_equal;
    change (drop ?k (?x :: ?l)) with (drop (pred k) l); cbn [pred];
    apply drop_putUintLE.
Qed.

Lemma ParseCompactSize_WriteCompactSize (n : N) (bs tl : list byte) :
  n < 2 ^ 64 →
  WriteCompactSize n true = Ok bs →
  ParseCompactSize (bs ++ tl) true = Ok (n, tl).
Proof.
  intros Hn. unfold WriteCompactSize. cbn [negb andb].
  destruct (n <? 253) eqn:H1; [|destruct (n <=? 65535) eqn:H2;
    [|destruct (n <=? 4294967295) eqn:H3]]; intros Hbs;
    match type of Hbs with Ok ?l = _ => replace bs with l by congruence end;
    clear Hbs; unfold ParseCompactSize; cbn [app].
  - apply N.ltb_lt in H1. unfold parseBody.
    assert (Hb : Byte.to_N (byte_of n) = n)
      by (rewrite to_N_byte_of; apply N.mod_small; lia).
    repeat case_decide;
      try match goal with
          | H : byte_of n = _ |- _ => rewrite H in Hb; vm_compute in Hb; lia
          end.
    cbn [bind negb andb]. by rewrite Hb.
  - apply N.ltb_ge in H1. apply N.leb_le in H2.
    rewrite (parseBody_marker 2) by tauto. cbn [bind negb andb].
    change (256 ^ N.of_nat 2) with (2 ^ 16).
    rewrite N.Div0.mod_mod. by rewrite N.mod_small by lia.
  - apply N.leb_gt in H2. apply N.leb_le in H3.
    rewrite (parseBody_marker 4) by tauto. cbn [bind negb andb].
    change (256 ^ N.of_nat 4) with (2 ^ 32).
    rewrite N.Div0.mod_mod. by rewrite N.mod_small by lia.
  - apply N.leb_gt in H3.
    rewrite (parseBody_marker 8) by tauto. cbn [bind negb andb].
    change (256 ^ N.of_nat 8) with (2 ^ 64).
    rewrite N.Div0.mod_mod. by rewrite N.mod_small by lia.
Qed.

(** A successful parse consumes at least one byte. *)
Lemma ParseCompactSize_shorter (rest rest' : list byte) (allow : bool) (n : N) :
  ParseCompactSize rest allow = Ok (n, rest') →
  (length rest' < length rest)%nat.
Proof.
  unfold ParseCompactSize, parseBody.
  destruct rest as [|b tl]; [done|].
  repeat case_decide; simpl; repeat case_match; intros [= <- <-];
    rewrite ?length_drop; simpl in *; lia.
Qed.

(** The values of [TestCompactSize]: written and parsed back with nothing
    left, within the range and with the extended range, and the encodings
    the test expects to be refused. *)
Lemma TestCompactSize_vectors :
  Forall (writes_and_parses false)
    [0; 1; 252; 253; 254; 255; 256; 0xFFFE; 0xFFFF; 0x010000; 0x010001; 0x02000000]
  ∧ Forall (writes_and_parses true)
      [0xFFFFFFFE; 0xFFFFFFFF; 0x0100000000; 0xFFFFFFFFFFFFFFFF]
  ∧ ParseCompactSize [xfe; x01; x00; x00; x02] false = Err ErrExceedsMaxCompactSize
  ∧ ParseCompactSize [xff; x00; x00; x00; x00; x01; x00; x00; x00] false
    = Err ErrExceedsMaxCompactSize
  ∧ ParseCompactSize [xff; xff; xff; xff; xff; xff; xff; xff; xff] false
    = Err ErrExceedsMaxCompactSize.
Proof.
  split; [|split; [|by vm_compute]];
    repeat constructor; (eexists; split; [reflexivity|by vm_compute]).
Qed.

End compactsize_roundtrip.

Section compactsize_format.
Import compactsize.

Lemma little_endian_putUintLE (w : nat) (n : N) :
  little_endian w n (putUintLE w n).
Proof.
  split; [apply length_putUintLE|].
  intros i Hi. rewrite lookup_putUintLE by done. simpl.
  by rewrite to_N_byte_of.
Qed.

(** C4. Whenever [WriteCompactSize(n, allow)] is not refused by the range
    ceiling, it returns: one byte holding [n] when [n < 253]; [0xFD] and
    [n] in two little-endian bytes when [253 <= n <= 65535]; [0xFE] and
    [n] in four little-endian bytes when [65536 <= n <= 2^32-1]; [0xFF]
    and [n] in eight little-endian bytes when [n >= 2^32]. And
    [WriteCompactSize(300, false) = [0xFD, 0x2C, 0x01]],
    [ParseCompactSize([0xFD, 0x2C, 0x01], false) = (300, [])]. *)
Theorem WriteCompactSize_format (n : N) (allowOutOfRange : bool) :
  n < 2 ^ 64 →
  allowOutOfRange = true ∨ n ≤ maxCompactSize →
  (∃ bs, WriteCompactSize n allowOutOfRange = Ok bs ∧
     (n < 253 → ∃ b, bs = [b] ∧ Byte.to_N b = n) ∧
     (253 ≤ n ≤ 65535 → ∃ p, bs = xfd :: p ∧ little_endian 2 n p) ∧
     (65536 ≤ n ≤ 2 ^ 32 - 1 → ∃ p, bs = xfe :: p ∧ little_endian 4 n p) ∧
     (2 ^ 32 ≤ n → ∃ p, bs = xff :: p ∧ little_endian 8 n p))
  ∧ WriteCompactSize 300 false = Ok [xfd; x2c; x01]
  ∧ ParseCompactSize [xfd; x2c; x01] false = Ok (300, []).
Proof.
  intros Hn Hrange. split; [|done].
  unfold WriteCompactSize.
  assert (negb allowOutOfRange && (maxCompactSize <? n) = false) as ->.
  { destruct Hrange as [->|Hle]; [done|].
    apply andb_false_iff. right. by apply N.ltb_ge. }
  change (2 ^ 32 - 1) with 4294967295. change (2 ^ 32) with 4294967296.
  destruct (n <? 253) eqn:H1; [|destruct (n <=? 65535) eqn:H2;
    [|destruct (n <=? 4294967295) eqn:H3]];
    rewrite ?N.ltb_lt, ?N.ltb_ge, ?N.leb_le, ?N.leb_gt in *;
    eexists; (split; [reflexivity|]); repeat split; intros; try lia.
  - eexists; split; [done|]. rewrite to_N_byte_of. apply N.mod_small. lia.
  - eexists; split; [done|]. change (2 ^ 16) with 65536.
    rewrite N.mod_small by lia. apply little_endian_putUintLE.
  - eexists; split; [done|]. change (2 ^ 32) with 4294967296.
    rewrite N.mod_small by lia. apply little_endian_putUintLE.
  - eexists; split; [done|].
    rewrite N.mod_small by lia. apply little_endian_putUintLE.
Qed.

Lemma WriteCompactSize_format_witness :
  (maxCompactSize < 2 ^ 64 ∧ maxCompactSize ≤ maxCompactSize)
  ∧ ∃ p, WriteCompactSize maxCompactSize false = Ok (xfe :: p)
         ∧ little_endian 4 maxCompactSize p.
Proof.
  split; [by vm_compute|].
  destruct (WriteCompactSize_format maxCompactSize false)
    as [(bs & Hbs & _ & _ & H4 & _) _]; [done|by right|].
  destruct H4 as (p & -> & Hp); [by vm_compute|].
  by exists p.
Defined.

(** C5. [WriteCompactSize(n, allowOutOfRange)] returns the range error
    exactly when [allowOutOfRange] is false and [n] is above 33,554,432
    (and it returns no other error); [ParseCompactSize] returns the range
    error exactly when [allowOutOfRange] is false and the integer it
    decodes is above 33,554,432, and otherwise returns what it returns
    with the extended range allowed. The ceiling is one constant, used
    for every encoding width. *)
Theorem CompactSize_range_error (n : N) (rest : list byte) (allowOutOfRange : bool) :
  maxCompactSize = 33554432
  ∧ (WriteCompactSize n allowOutOfRange = Err ErrExceedsMaxCompactSize
     ↔ allowOutOfRange = false ∧ 33554432 < n)
  ∧ (∀ e, WriteCompactSize n allowOutOfRange = Err e → e = ErrExceedsMaxCompactSize)
  ∧ (ParseCompactSize rest allowOutOfRange = Err ErrExceedsMaxCompactSize
     ↔ allowOutOfRange = false
       ∧ ∃ v rest', ParseCompactSize rest true = Ok (v, rest') ∧ 33554432 < v)
  ∧ (ParseCompactSize rest allowOutOfRange ≠ Err ErrExceedsMaxCompactSize →
     ParseCompactSize rest allowOutOfRange = ParseCompactSize rest true).
Proof.
  split; [done|]. split; [|split; [|split]].
  - unfold WriteCompactSize. change maxCompactSize with 33554432.
    destruct allowOutOfRange; cbn [negb andb].
    + split; [|intros [? _]; done]. repeat case_match; done.
    + destruct (33554432 <? n) eqn:E.
      * apply N.ltb_lt in E. done.
      * apply N.ltb_ge in E. split; [|lia]. repeat case_match; done.
  - unfold WriteCompactSize. repeat case_match; congruence.
  - unfold ParseCompactSize. change maxCompactSize with 33554432.
    destruct (parseBody rest) as [[v r]|e| |] eqn:Hp; cbn [bind].
    + destruct allowOutOfRange; cbn [negb andb].
      * split; [done|by intros [? _]].
      * destruct (33554432 <? v) eqn:E.
        -- apply N.ltb_lt in E. split; [|done]. intros _. split; [done|].
           by exists v, r.
        -- apply N.ltb_ge in E. split; [done|].
           intros [_ (v' & r' & [= <- <-] & Hv)]. lia.
    + split.
      * intros [= ->]. unfold parseBody in Hp.
        repeat case_match; done.
      * by intros [_ (v & r & ? & _)].
    + split; [done|]. by intros [_ (v & r & ? & _)].
    + split; [done|]. by intros [_ (v & r & ? & _)].
  - unfold ParseCompactSize.
    destruct (parseBody rest) as [[v r]|e| |]; cbn [bind]; try done.
    destruct allowOutOfRange; [done|]. cbn [negb andb].
    by destruct (maxCompactSize <? v).
Qed.

End compactsize_format.

(** ** The item codec *)

Section item_codec.
Import compactsize unifiedaddress.

Lemma WriteCompactSize_compactSizeBytes (n : N) :
  WriteCompactSize n true = Ok (compactSizeBytes n).
Proof.
  unfold compactSizeBytes.
  by destruct (WriteCompactSize_true n) as (bs & -> & _).
Qed.

Lemma length_compactSizeBytes (n : N) : (1 ≤ length (compactSizeBytes n))%nat.
Proof.
  unfold compactSizeBytes.
  by destruct (WriteCompactSize_true n) as (bs & -> & ?).
Qed.

Lemma ParseCompactSize_compactSizeBytes (n : N) (tl : list byte) :
  n < 2 ^ 64 →
  ParseCompactSize (compactSizeBytes n ++ tl) true = Ok (n, tl).
Proof.
  intros Hn. apply ParseCompactSize_WriteCompactSize; [done|].
  apply WriteCompactSize_compactSizeBytes.
Qed.

Lemma tlv_itemBytes (typecode : N) (value : list byte) :
  tlv typecode value = Ok (itemBytes (typecode, value)).
Proof.
  unfold tlv, itemBytes. cbn [fst snd].
  by rewrite !WriteCompactSize_compactSizeBytes.
Qed.

Lemma length_itemBytes (item : N * list byte) : (2 ≤ length (itemBytes item))%nat.
Proof.
  unfold itemBytes. rewrite !length_app.
  pose proof (length_compactSizeBytes item.1).
  pose proof (length_compactSizeBytes (N.of_nat (length item.2))). lia.
Qed.

Lemma int_of_uint64_small (n : N) : n < 2 ^ 63 → int_of_uint64 n = Z.of_N n.
Proof. intros Hn. unfold int_of_uint64. by apply N.ltb_lt in Hn as ->. Qed.

(** Decoding the wire form of an item parses it back and applies the
    checks of the loop to it. *)
Lemma decodeItem_itemBytes (item : N * list byte) (tl : list byte)
    (receivers : gmap N (list byte)) (prevType : N) :
  typedItem item →
  decodeItem (itemBytes item ++ tl) receivers prevType =
  (let? (receivers', prevType') := checkItem item receivers prevType in
   Ok (tl, receivers', prevType')).
Proof.
  destruct item as [t v]. intros [Ht Hv]. cbn [fst snd] in *.
  unfold decodeItem, itemBytes. cbn [fst snd].
  rewrite <- !app_assoc.
  rewrite ParseCompactSize_compactSizeBytes by done.
  rewrite ParseCompactSize_compactSizeBytes by lia.
  unfold checkItem.
  case_decide; [done|].
  rewrite int_of_uint64_small by done.
  rewrite decide_False by (rewrite length_app; lia).
  rewrite decide_False by (rewrite length_app; lia).
  rewrite Nat2N.id, take_app_length, drop_app_length.
  repeat case_decide; done.
Qed.

Lemma decodeItems_flat_map (items : list (N * list byte)) (fuel : nat)
    (receivers : gmap N (list byte)) (prevType : N) :
  Forall typedItem items →
  (length (flat_map itemBytes items) ≤ fuel)%nat →
  decodeItems fuel (flat_map itemBytes items) receivers prevType =
  checkItems items receivers prevType.
Proof.
  intros Htyped. revert fuel receivers prevType.
  induction Htyped as [|item items Hitem _ IH]; intros fuel receivers prevType Hfuel.
  - by destruct fuel.
  - cbn [flat_map] in *. rewrite length_app in Hfuel.
    pose proof (length_itemBytes item) as Hlen.
    destruct (itemBytes item ++ flat_map itemBytes items) as [|b bs] eqn:Hbytes.
    { apply (f_equal length) in Hbytes. rewrite length_app in Hbytes.
      simpl in Hbytes. lia. }
    destruct fuel as [|fuel]; [lia|].
    cbn [decodeItems checkItems]. rewrite <- Hbytes.
    rewrite decodeItem_itemBytes by done.
    destruct (checkItem item receivers prevType) as [[r p]|e| |]; cbn [bind]; try done.
    apply IH. lia.
Qed.

Lemma ParseCompactSize_not_OutOfFuel (rest : list byte) (allow : bool) :
  ParseCompactSize rest allow ≠ OutOfFuel.
Proof.
  unfold ParseCompactSize, parseBody.
  destruct rest as [|b tl]; [done|].
  repeat case_decide; cbn [bind]; by repeat case_match.
Qed.

Lemma decodeItem_not_OutOfFuel (rest : list byte)
    (receivers : gmap N (list byte)) (prevType : N) :
  decodeItem rest receivers prevType ≠ OutOfFuel.
Proof.
  unfold decodeItem.
  destruct (ParseCompactSize rest true) as [[t r1]|?| |] eqn:H1; try done.
  - destruct (ParseCompactSize r1 true) as [[l r2]|?| |] eqn:H2; try done.
    + by repeat case_decide.
    + by apply ParseCompactSize_not_OutOfFuel in H2.
  - by apply ParseCompactSize_not_OutOfFuel in H1.
Qed.

(** The loop always ends within [length rest] passes. *)
Lemma decodeItem_shorter (rest rest' : list byte)
    (receivers receivers' : gmap N (list byte)) (prevType prevType' : N) :
  decodeItem rest receivers prevType = Ok (rest', receivers', prevType') →
  (length rest' < length rest)%nat.
Proof.
  unfold decodeItem.
  destruct (ParseCompactSize rest true) as [[t r1]|?| |] eqn:H1; try done.
  destruct (ParseCompactSize r1 true) as [[l r2]|?| |] eqn:H2; try done.
  apply ParseCompactSize_shorter in H1, H2.
  repeat case_decide; try done. intros [= <- _ _].
  rewrite length_drop. lia.
Qed.

Lemma decodeItems_fuel (fuel : nat) (rest : list byte)
    (receivers : gmap N (list byte)) (prevType : N) :
  (length rest ≤ fuel)%nat →
  decodeItems fuel rest receivers prevType ≠ OutOfFuel.
Proof.
  revert rest receivers prevType.
  induction fuel as [|fuel IH]; intros rest receivers prevType Hfuel.
  - by destruct rest; [|simpl in Hfuel; lia].
  - destruct rest as [|b rest]; [done|]. cbn [decodeItems].
    destruct (decodeItem (b :: rest) receivers prevType)
      as [[[r m] p]|e| |] eqn:Hitem; cbn [bind]; try done.
    + apply IH. apply decodeItem_shorter in Hitem. simpl in *. lia.
    + by apply decodeItem_not_OutOfFuel in Hitem.
Qed.

End item_codec.

(** ** The encoder *)

Section encoder.
Import compactsize unifiedaddress.

Lemma encodeField_ok (itemType : N) (field : option (list byte))
    (encodedItems : list (list byte)) :
  encodeField itemType field encodedItems =
  Ok (encodedItems ++ (itemBytes <$> fieldItem itemType field)).
Proof.
  destruct field as [value|]; cbn [encodeField fieldItem].
  - by rewrite tlv_itemBytes.
  - by rewrite app_nil_r.
Qed.

Lemma encodeUnknown_ok (visit : list (N * list byte))
    (encodedItems : list (list byte)) :
  encodeUnknown visit encodedItems =
  Ok (encodedItems ++ (itemBytes <$> filter nonEmpty visit)).
Proof.
  revert encodedItems.
  induction visit as [|[t v] visit IH]; intros encodedItems.
  - cbn. by rewrite app_nil_r.
  - cbn [encodeUnknown]. case_decide as Hlen.
    + rewrite tlv_itemBytes. cbn [bind]. rewrite IH.
      rewrite filter_cons_True
        by (unfold nonEmpty; destruct v; [simpl in Hlen; lia|done]).
      by rewrite fmap_cons, <- app_assoc.
    + rewrite IH.
      rewrite filter_cons_False; [done|].
      unfold nonEmpty. destruct v; simpl in *; [tauto|lia].
Qed.

(** The buffer handed to the jumble: the emitted items, then the padding. *)
Lemma EncodeUnified_rBytes_ok (visit : list (N * list byte))
    (addr : UnifiedAddress) (hrp : string) :
  ¬ (is_Some (P2pkh addr) ∧ is_Some (P2sh addr)) →
  EncodeUnified_rBytes visit addr hrp =
  Ok (flat_map itemBytes (emittedItems visit addr) ++ padding hrp).
Proof.
  intros Hboth. unfold EncodeUnified_rBytes.
  rewrite decide_False by done.
  do 4 (rewrite encodeField_ok; cbn [bind]).
  rewrite encodeUnknown_ok. cbn [bind]. f_equal.
  rewrite concat_app. cbn [concat]. rewrite app_nil_r. f_equal.
  rewrite flat_map_concat_map. f_equal.
  unfold emittedItems. cbn [app].
  by rewrite <- !app_assoc, !map_app.
Qed.

Lemma EncodeUnified_rBytes_both (visit : list (N * list byte))
    (addr : UnifiedAddress) (hrp : string) :
  is_Some (P2pkh addr) ∧ is_Some (P2sh addr) →
  EncodeUnified_rBytes visit addr hrp = Err ErrBothTransparent.
Proof. intros Hboth. unfold EncodeUnified_rBytes. by rewrite decide_True. Qed.

End encoder.

(** ** The checks of the decoding loop *)

Section check_items.
Import unifiedaddress.

Lemma checkItem_Ok (item : N * list byte) (receivers receivers' : gmap N (list byte))
    (prevType prevType' : N) :
  checkItem item receivers prevType = Ok (receivers', prevType') →
  receivers !! item.1 = None ∧ receivers' = <[item.1 := item.2]> receivers
  ∧ prevType' = item.1.
Proof.
  destruct item as [t v]. unfold checkItem.
  repeat case_decide; try done. intros [= <- <-].
  split; [|done]. by apply eq_None_not_Some.
Qed.

(** When the loop accepts a sequence of items, their typecodes are
    pairwise distinct and new, and the receivers are extended by exactly
    these items. *)
Lemma checkItems_Ok (items : list (N * list byte))
    (receivers m : gmap N (list byte)) (prevType : N) :
  checkItems items receivers prevType = Ok m →
  m = list_to_map items ∪ receivers ∧ NoDup items.*1
  ∧ ∀ t, t ∈ items.*1 → receivers !! t = None.
Proof.
  revert receivers prevType.
  induction items as [|[t v] items IH]; intros receivers prevType.
  - cbn. intros [= <-]. split; [by rewrite (left_id_L ∅ (∪))|].
    split; [constructor|]. intros t Ht. by apply elem_of_nil in Ht.
  - cbn [checkItems].
    destruct (checkItem (t, v) receivers prevType) as [[r p]|e| |] eqn:Hitem;
      cbn [bind]; try done.
    apply checkItem_Ok in Hitem as (Hnew & -> & ->). cbn [fst snd] in *.
    intros (-> & Hnodup & Hfresh)%IH.
    assert (Ht : t ∉ items.*1).
    { intros Hin. apply Hfresh in Hin. by rewrite lookup_insert_eq in Hin. }
    split; [|split].
    + rewrite list_to_map_cons.
      rewrite <- insert_union_l. symmetry. apply insert_union_r.
      by apply not_elem_of_list_to_map_1.
    + rewrite fmap_cons. by constructor.
    + intros t'. rewrite fmap_cons. intros [->|Hin]%elem_of_cons; [done|].
      specialize (Hfresh _ Hin).
      destruct (decide (t = t')) as [->|Hne]; [done|].
      by rewrite lookup_insert_ne in Hfresh.
Qed.

(** Items in strictly ascending order of typecode, new to the receivers,
    above the previous typecode and of the expected lengths are accepted. *)
Lemma checkItems_ascending (items : list (N * list byte))
    (receivers : gmap N (list byte)) (prevType : N) :
  StronglySorted N.lt items.*1 →
  (∀ t, t ∈ items.*1 → receivers !! t = None) →
  (prevType = NoPreviousItem ∨ ∀ t, t ∈ items.*1 → prevType < t) →
  Forall expectedLength items →
  ∃ m, checkItems items receivers prevType = Ok m.
Proof.
  revert receivers prevType.
  induction items as [|[t v] items IH]; intros receivers prevType Hsorted Hfresh Hprev Hlen.
  - by eexists.
  - rewrite fmap_cons in *. cbn [fst] in *.
    apply StronglySorted_inv in Hsorted as [Hsorted Hlt].
    apply Forall_cons in Hlen as [Hlen1 Hlen].
    cbn [checkItems]. unfold checkItem.
    rewrite decide_False; last first.
    { unfold expectedLength in Hlen1. cbn [fst snd] in Hlen1. intros [? ?]. lia. }
    rewrite decide_False; last first.
    { rewrite Hfresh; [by intros [? ?]|]. apply elem_of_cons. by left. }
    rewrite decide_False; last first.
    { intros [Hne Hle]. destruct Hprev as [?|Hprev]; [done|].
      assert (prevType < t) by (apply Hprev, elem_of_cons; by left). lia. }
    cbn [bind]. apply IH; [done| | |done].
    + intros t' Hin. rewrite lookup_insert_ne.
      * apply Hfresh. apply elem_of_cons. by right.
      * rewrite Forall_forall in Hlt. apply Hlt in Hin. lia.
    + right. intros t' Hin.
      rewrite Forall_forall in Hlt. by apply Hlt in Hin.
Qed.

End check_items.

(** ** Filling the address from the receivers *)

Section bucket_facts.
Import unifiedaddress.

Lemma UnifiedAddress_eq (a b : UnifiedAddress) :
  P2pkh a = P2pkh b → P2sh a = P2sh b → Sapling a = Sapling b →
  Orchard a = Orchard b → Unknown a = Unknown b → a = b.
Proof. destruct a, b; simpl; congruence. Qed.

Lemma unknownType_iff (t : N) (v : list byte) :
  unknownType (t, v) ↔ 4 ≤ t.
Proof.
  unfold unknownType, P2PKHItem, P2SHItem, SaplingItem, OrchardItem.
  cbn [fst]. lia.
Qed.

Lemma bucket_fields (acc : UnifiedAddress) (t : N) (v : list byte) :
  P2pkh (bucket acc (t, v)) =
    (if decide (t = P2PKHItem) then Some (copyInto 20 v) else P2pkh acc)
  ∧ P2sh (bucket acc (t, v)) =
    (if decide (t = P2SHItem) then Some (copyInto 20 v) else P2sh acc)
  ∧ Sapling (bucket acc (t, v)) =
    (if decide (t = SaplingItem) then Some (copyInto 43 v) else Sapling acc)
  ∧ Orchard (bucket acc (t, v)) =
    (if decide (t = OrchardItem) then Some (copyInto 43 v) else Orchard acc)
  ∧ Unknown (bucket acc (t, v)) =
    (if decide (unknownType (t, v)) then <[t := v]> (Unknown acc) else Unknown acc).
Proof.
  unfold bucket, unknownType. cbn [fst].
  repeat case_decide; subst; cbn [P2pkh P2sh Sapling Orchard Unknown];
    repeat split; try done; tauto.
Qed.

Lemma from_option_insert (f : list byte → list byte) (t k : N) (v : list byte)
    (old : option (list byte)) (m : gmap N (list byte)) :
  m !! t = None →
  from_option (Some ∘ f) (if decide (t = k) then Some (f v) else old) (m !! k) =
  from_option (Some ∘ f) old (<[t := v]> m !! k).
Proof.
  intros Ht. rewrite lookup_insert.
  case_decide; [subst; by rewrite Ht|done].
Qed.

(** The fields after bucketing a sequence of receivers with distinct
    typecodes, starting from [acc]. *)
Lemma foldl_bucket (l : list (N * list byte)) (acc : UnifiedAddress) :
  NoDup l.*1 →
  let m : gmap N (list byte) := list_to_map l in
  P2pkh (foldl bucket acc l) = from_option (Some ∘ copyInto 20) (P2pkh acc) (m !! P2PKHItem)
  ∧ P2sh (foldl bucket acc l) = from_option (Some ∘ copyInto 20) (P2sh acc) (m !! P2SHItem)
  ∧ Sapling (foldl bucket acc l) = from_option (Some ∘ copyInto 43) (Sapling acc) (m !! SaplingItem)
  ∧ Orchard (foldl bucket acc l) = from_option (Some ∘ copyInto 43) (Orchard acc) (m !! OrchardItem)
  ∧ Unknown (foldl bucket acc l) = filter unknownType m ∪ Unknown acc.
Proof.
  revert acc. induction l as [|[t v] l IH]; intros acc Hnodup.
  - cbn. rewrite !lookup_empty. cbn. rewrite map_filter_empty.
    by rewrite (left_id_L ∅ (∪)).
  - rewrite fmap_cons in Hnodup. apply NoDup_cons in Hnodup as [Ht Hnodup].
    cbn [fst] in Ht.
    apply (not_elem_of_list_to_map_1 (M:=gmap N)) in Ht.
    destruct (IH (bucket acc (t, v)) Hnodup) as (H0 & H1 & H2 & H3 & Hu).
    destruct (bucket_fields acc t v) as (B0 & B1 & B2 & B3 & Bu).
    cbn zeta in *. cbn [foldl]. rewrite H0, H1, H2, H3, Hu, B0, B1, B2, B3, Bu.
    rewrite list_to_map_cons.
    repeat split; try by apply from_option_insert.
    case_decide as Hunk.
    + rewrite map_filter_insert_True by done.
      rewrite <- insert_union_l. symmetry. apply insert_union_r.
      apply map_lookup_filter_None_2. by left.
    + rewrite map_filter_insert_False by done.
      by rewrite delete_id.
Qed.

Lemma bucketAll_addressOf (l : list (N * list byte)) :
  NoDup l.*1 → bucketAll l = addressOf (list_to_map l).
Proof.
  intros Hnodup. unfold bucketAll.
  destruct (foldl_bucket l emptyAddress Hnodup) as (H0 & H1 & H2 & H3 & Hu).
  cbn zeta in *.
  apply UnifiedAddress_eq; cbn [addressOf P2pkh P2sh Sapling Orchard Unknown].
  - rewrite H0. by destruct (_ !! _).
  - rewrite H1. by destruct (_ !! _).
  - rewrite H2. by destruct (_ !! _).
  - rewrite H3. by destruct (_ !! _).
  - rewrite Hu. cbn. by rewrite (right_id_L ∅ (∪)).
Qed.

(** The order in which the last [range] of [DecodeUnified] visits
    [receivers] does not matter. *)
Lemma bucketAll_range (receivers : gmap N (list byte)) (visit : list (N * list byte)) :
  range_of receivers visit → bucketAll visit = addressOf receivers.
Proof.
  unfold range_of. intros Hperm.
  assert (Hnodup : NoDup visit.*1).
  { rewrite Hperm. apply NoDup_fst_map_to_list. }
  rewrite bucketAll_addressOf by done. f_equal.
  symmetry. by apply list_to_map_flip.
Qed.

Lemma bucketAll_map_to_list (receivers : gmap N (list byte)) :
  bucketAll (map_to_list receivers) = addressOf receivers.
Proof. apply bucketAll_range. by unfold range_of. Qed.

Lemma copyInto_length (n : nat) (data : list byte) :
  length data = n → copyInto n data = data.
Proof.
  intros <-. unfold copyInto.
  rewrite firstn_all, Nat.sub_diag. apply app_nil_r.
Qed.

End bucket_facts.

(** ** The padding and the decoder after the jumble *)

Section decoded_facts.
Import unifiedaddress.

Lemma length_padding (hrp : string) :
  length (padding hrp) = (length (list_byte_of_string hrp) `max` 16)%nat.
Proof.
  unfold padding. rewrite length_app, length_replicate.
  destruct (16 - Z.of_nat (length (list_byte_of_string hrp)) <? 0)%Z eqn:E.
  - apply Z.ltb_lt in E. lia.
  - apply Z.ltb_ge in E. lia.
Qed.

Lemma padding_short (hrp : string) :
  (length (list_byte_of_string hrp) ≤ 16)%nat →
  padding hrp = list_byte_of_string hrp
                ++ replicate (16 - length (list_byte_of_string hrp)) x00.
Proof.
  intros Hlen. unfold padding. do 2 f_equal.
  destruct (16 - Z.of_nat (length (list_byte_of_string hrp)) <? 0)%Z eqn:E.
  - apply Z.ltb_lt in E. lia.
  - lia.
Qed.

Lemma DecodeUnified_decoded_split (decoded : list byte) (expectedHrp : string) :
  (16 ≤ length decoded)%nat →
  DecodeUnified_decoded decoded expectedHrp =
  if decide (drop (length decoded - 16) decoded ≠ padding expectedHrp) then
    Err ErrInvalidPadding
  else
    let rest := take (length decoded - 16) decoded in
    let? receivers := decodeItems (length rest) rest ∅ NoPreviousItem in
    Ok (addressOf receivers).
Proof.
  intros Hlen. unfold DecodeUnified_decoded.
  rewrite decide_False by lia. case_decide; [done|]. cbn zeta.
  destruct (decodeItems _ _ _ _); cbn [bind]; try done.
  by rewrite bucketAll_map_to_list.
Qed.

(** The decoder never runs out of passes. *)
Lemma DecodeUnified_decoded_total (decoded : list byte) (expectedHrp : string) :
  DecodeUnified_decoded decoded expectedHrp ≠ OutOfFuel.
Proof.
  unfold DecodeUnified_decoded. repeat case_decide; try done.
  destruct (decodeItems _ _ _ _) eqn:Hloop; cbn [bind]; try done.
  by apply decodeItems_fuel in Hloop.
Qed.

Lemma DecodeUnified_decoded_app (body : list byte) (hrp : string) :
  (length (list_byte_of_string hrp) ≤ 16)%nat →
  DecodeUnified_decoded (body ++ padding hrp) hrp =
  (let? receivers := decodeItems (length body) body ∅ NoPreviousItem in
   Ok (addressOf receivers)).
Proof.
  intros Hhrp.
  assert (Hpad : length (padding hrp) = 16%nat) by (rewrite length_padding; lia).
  rewrite DecodeUnified_decoded_split by (rewrite length_app; lia).
  rewrite length_app, Hpad.
  replace (length body + 16 - 16)%nat with (length body) by lia.
  rewrite drop_app_length, take_app_length.
  rewrite decide_False; [done|]. intros Hne. by apply Hne.
Qed.

End decoded_facts.

(** ** The items an address emits *)

Section emitted_facts.
Import unifiedaddress.

Lemma elem_of_fieldItem (t k : N) (v : list byte) (field : option (list byte)) :
  (k, v) ∈ fieldItem t field ↔ k = t ∧ field = Some v.
Proof.
  destruct field as [w|]; cbn.
  - rewrite list_elem_of_singleton. split.
    + by intros [= -> ->].
    + by intros [-> [= ->]].
  - rewrite elem_of_nil. split; [done|]. by intros [_ ?].
Qed.

Lemma elem_of_emittedItems (visit : list (N * list byte)) (a : UnifiedAddress)
    (k : N) (v : list byte) :
  (k, v) ∈ emittedItems visit a ↔
  (k = P2PKHItem ∧ P2pkh a = Some v) ∨ (k = P2SHItem ∧ P2sh a = Some v)
  ∨ (k = SaplingItem ∧ Sapling a = Some v) ∨ (k = OrchardItem ∧ Orchard a = Some v)
  ∨ (v ≠ [] ∧ (k, v) ∈ visit).
Proof.
  unfold emittedItems.
  rewrite !elem_of_app, !elem_of_fieldItem, list_elem_of_filter.
  unfold nonEmpty. cbn [snd]. tauto.
Qed.

Lemma StronglySorted_filter_fst (P : N * list byte → Prop)
    `{!∀ x, Decision (P x)} (l : list (N * list byte)) :
  StronglySorted N.lt l.*1 → StronglySorted N.lt (filter P l).*1.
Proof.
  induction l as [|x l IH]; [done|].
  rewrite fmap_cons. intros [Hs Hall]%StronglySorted_inv.
  rewrite filter_cons. case_decide; [|by apply IH].
  rewrite fmap_cons. constructor; [by apply IH|].
  rewrite Forall_forall in Hall |- *. intros k Hk. apply Hall.
  apply list_elem_of_fmap in Hk as (y & -> & Hy).
  apply list_elem_of_filter in Hy as [_ Hy].
  by apply list_elem_of_fmap_2.
Qed.

Lemma range_of_lookup (m : gmap N (list byte)) (visit : list (N * list byte))
    (k : N) (v : list byte) :
  range_of m visit → (k, v) ∈ visit ↔ m !! k = Some v.
Proof. unfold range_of. intros ->. apply elem_of_map_to_list. Qed.

Section with_address.
Context (visit : list (N * list byte)) (a : UnifiedAddress).
Context (Hwf : wf_UnifiedAddress a) (Hrange : range_of (Unknown a) visit).

Lemma emittedItems_typed : Forall typedItem (emittedItems visit a).
Proof.
  destruct Hwf as (H0 & H1 & H2 & H3 & Hu).
  apply Forall_forall. intros [k v] Hin.
  apply elem_of_emittedItems in Hin. unfold typedItem. cbn [fst snd].
  unfold P2PKHItem, P2SHItem, SaplingItem, OrchardItem in Hin.
  destruct Hin as [[-> Hv]|[[-> Hv]|[[-> Hv]|[[-> Hv]|[_ Hv]]]]].
  - apply H0 in Hv. rewrite Hv. by vm_compute.
  - apply H1 in Hv. rewrite Hv. by vm_compute.
  - apply H2 in Hv. rewrite Hv. by vm_compute.
  - apply H3 in Hv. rewrite Hv. by vm_compute.
  - apply range_of_lookup with (m := Unknown a) in Hv; [|done].
    by apply Hu in Hv.
Qed.

Context (Hunknown : wf_Unknown a).

Lemma emittedItems_expectedLength : Forall expectedLength (emittedItems visit a).
Proof.
  destruct Hwf as (H0 & H1 & H2 & H3 & Hu).
  apply Forall_forall. intros [k v] Hin.
  apply elem_of_emittedItems in Hin. unfold expectedLength. cbn [fst snd].
  unfold P2PKHItem, P2SHItem, SaplingItem, OrchardItem in Hin.
  destruct Hin as [[-> Hv]|[[-> Hv]|[[-> Hv]|[[-> Hv]|[_ Hv]]]]].
  - apply H0 in Hv. rewrite Hv. by right.
  - apply H1 in Hv. rewrite Hv. by right.
  - apply H2 in Hv. rewrite Hv. by right.
  - apply H3 in Hv. rewrite Hv. by right.
  - apply range_of_lookup with (m := Unknown a) in Hv; [|done].
    apply Hunknown in Hv as [Hk _]. left.
    unfold getExpectedLength, P2PKHItem, P2SHItem, SaplingItem, OrchardItem.
    repeat case_decide; try done; lia.
Qed.

Lemma visit_keys (k : N) : k ∈ (filter nonEmpty visit).*1 → 4 ≤ k.
Proof.
  intros ([k' v] & -> & Hin)%list_elem_of_fmap.
  apply list_elem_of_filter in Hin as [_ Hin].
  apply range_of_lookup with (m := Unknown a) in Hin; [|done].
  by apply Hunknown in Hin as [? _].
Qed.

Lemma emittedItems_sorted :
  ¬ (is_Some (P2pkh a) ∧ is_Some (P2sh a)) →
  ascending visit →
  StronglySorted N.lt (emittedItems visit a).*1.
Proof.
  intros Hboth Hasc.
  pose proof (StronglySorted_filter_fst nonEmpty visit Hasc) as Htail.
  assert (Hlow : ∀ t, t < 4 → Forall (N.lt t) (filter nonEmpty visit).*1).
  { intros t Ht. apply Forall_forall. intros k Hk%visit_keys. lia. }
  unfold emittedItems, P2PKHItem, P2SHItem, SaplingItem, OrchardItem.
  destruct (P2pkh a), (P2sh a), (Sapling a), (Orchard a);
    try (exfalso; apply Hboth; by split);
    cbn [fieldItem app]; rewrite ?fmap_cons; cbn [fst];
    repeat (apply SSorted_cons;
            [|repeat (apply Forall_cons; split; [done|]); by apply Hlow]);
    done.
Qed.

(** The receivers read back from the emitted items are the fields of
    the address. *)
Lemma addressOf_emittedItems :
  NoDup (emittedItems visit a).*1 →
  addressOf (list_to_map (emittedItems visit a)) = a.
Proof.
  intros Hnodup. destruct Hwf as (H0 & H1 & H2 & H3 & Hu).
  assert (Hlookup : ∀ k v,
    (list_to_map (emittedItems visit a) : gmap N (list byte)) !! k = Some v
    ↔ (k, v) ∈ emittedItems visit a).
  { intros k v. symmetry. by apply elem_of_list_to_map. }
  assert (Hknown : ∀ k v, k < 4 → ¬ (v ≠ [] ∧ (k, v) ∈ visit)).
  { intros k v Hk [_ Hin].
    apply range_of_lookup with (m := Unknown a) in Hin; [|done].
    apply Hunknown in Hin as [? _]. lia. }
  apply UnifiedAddress_eq; cbn [addressOf P2pkh P2sh Sapling Orchard Unknown].
  - transitivity (copyInto 20 <$> P2pkh a).
    + f_equal. apply option_eq. intros v.
      rewrite Hlookup, elem_of_emittedItems.
      unfold P2PKHItem, P2SHItem, SaplingItem, OrchardItem.
      split; [|intros ?; first [by left|by right; left|by do 2 right; left
                               |by do 3 right; left]].
      intros [[? ?]|[[? ?]|[[? ?]|[[? ?]|?]]]]; try done.
      by destruct (Hknown 0 v).
    + destruct (P2pkh a) as [p|]; [|done]. cbn.
      by rewrite copyInto_length by by apply H0.
  - transitivity (copyInto 20 <$> P2sh a).
    + f_equal. apply option_eq. intros v.
      rewrite Hlookup, elem_of_emittedItems.
      unfold P2PKHItem, P2SHItem, SaplingItem, OrchardItem.
      split; [|intros ?; first [by left|by right; left|by do 2 right; left
                               |by do 3 right; left]].
      intros [[? ?]|[[? ?]|[[? ?]|[[? ?]|?]]]]; try done.
      by destruct (Hknown 1 v).
    + destruct (P2sh a) as [p|]; [|done]. cbn.
      by rewrite copyInto_length by by apply H1.
  - transitivity (copyInto 43 <$> Sapling a).
    + f_equal. apply option_eq. intros v.
      rewrite Hlookup, elem_of_emittedItems.
      unfold P2PKHItem, P2SHItem, SaplingItem, OrchardItem.
      split; [|intros ?; first [by left|by right; left|by do 2 right; left
                               |by do 3 right; left]].
      intros [[? ?]|[[? ?]|[[? ?]|[[? ?]|?]]]]; try done.
      by destruct (Hknown 2 v).
    + destruct (Sapling a) as [p|]; [|done]. cbn.
      by rewrite copyInto_length by by apply H2.
  - transitivity (copyInto 43 <$> Orchard a).
    + f_equal. apply option_eq. intros v.
      rewrite Hlookup, elem_of_emittedItems.
      unfold P2PKHItem, P2SHItem, SaplingItem, OrchardItem.
      split; [|intros ?; first [by left|by right; left|by do 2 right; left
                               |by do 3 right; left]].
      intros [[? ?]|[[? ?]|[[? ?]|[[? ?]|?]]]]; try done.
      by destruct (Hknown 3 v).
    + destruct (Orchard a) as [p|]; [|done]. cbn.
      by rewrite copyInto_length by by apply H3.
  - apply map_eq. intros k. apply option_eq. intros v.
    rewrite map_lookup_filter_Some, Hlookup, elem_of_emittedItems.
    rewrite unknownType_iff.
    unfold P2PKHItem, P2SHItem, SaplingItem, OrchardItem.
    rewrite (range_of_lookup (Unknown a) visit k v Hrange).
    split.
    + intros [[[-> _]|[[-> _]|[[-> _]|[[-> _]|[_ ?]]]]] ?]; try lia. done.
    + intros Hv. pose proof (Hunknown _ _ Hv) as [? ?]. tauto.
Qed.

End with_address.

End emitted_facts.

(** ** Round trip *)

Section roundtrip_decoded.
Import unifiedaddress.

(** Whatever the decoder accepts from the emitted items of an address is
    the map of these items. *)
Lemma decodeItems_emitted (items : list (N * list byte)) (m : gmap N (list byte)) :
  Forall typedItem items →
  decodeItems (length (flat_map itemBytes items)) (flat_map itemBytes items)
    ∅ NoPreviousItem = Ok m →
  m = list_to_map items ∧ NoDup items.*1.
Proof.
  intros Htyped. rewrite decodeItems_flat_map by done.
  intros (-> & Hnodup & _)%checkItems_Ok.
  by rewrite (right_id_L ∅ (∪)).
Qed.

(** The decoder, from the jumbled-back buffer on, returns the address the
    encoder started from when the unknown items were visited in ascending
    order. *)
Lemma DecodeUnified_decoded_rBytes (visit : list (N * list byte))
    (a : UnifiedAddress) (hrp : string) :
  wf_UnifiedAddress a → wf_Unknown a →
  ¬ (is_Some (P2pkh a) ∧ is_Some (P2sh a)) →
  range_of (Unknown a) visit → ascending visit →
  (length (list_byte_of_string hrp) ≤ 16)%nat →
  DecodeUnified_decoded (flat_map itemBytes (emittedItems visit a) ++ padding hrp) hrp
  = Ok a.
Proof.
  intros Hwf Hunknown Hboth Hrange Hasc Hhrp.
  rewrite DecodeUnified_decoded_app by done.
  pose proof (emittedItems_typed visit a Hwf Hrange) as Htyped.
  destruct (checkItems_ascending (emittedItems visit a) ∅ NoPreviousItem)
    as [m Hm].
  - by apply emittedItems_sorted.
  - intros t _. apply lookup_empty.
  - by left.
  - by apply emittedItems_expectedLength.
  - rewrite decodeItems_flat_map by done. rewrite Hm. cbn [bind].
    apply checkItems_Ok in Hm as (-> & Hnodup & _).
    rewrite (right_id_L ∅ (∪)). f_equal.
    by apply addressOf_emittedItems.
Qed.

End roundtrip_decoded.

Section roundtrip.
Import unifiedaddress.
Context {C : Collaborators} {HC : CollaboratorContracts C}.

(** What [DecodeUnified] does with the string [EncodeUnified] wrote from
    the buffer [rBytes]. *)
Lemma DecodeUnified_of_encoded (rBytes : list byte) (hrp : string) :
  bech32_hrp hrp = true →
  48 ≤ N.of_nat (length rBytes) ≤ 4194368 →
  ∃ j d s, F4Jumble rBytes = Ok j ∧ ConvertBits j 8 5 true = Ok d
           ∧ EncodeM hrp d = Ok s
           ∧ DecodeUnified s hrp = DecodeUnified_decoded rBytes hrp.
Proof.
  intros Hhrp Hlen.
  destruct (F4Jumble_accepts rBytes Hlen) as [j Hj].
  destruct (F4Jumble_inverse _ _ Hj) as [Hinv Hjlen].
  destruct (ConvertBits_8_5 j) as (d & Hd & Hback & Hdlen).
  destruct (EncodeM_decodes hrp j d Hhrp Hd) as (s & Hs & Hdec).
  exists j, d, s. repeat split; try done.
  unfold DecodeUnified. rewrite Hdec.
  rewrite decide_False by (by intros Hne).
  rewrite decide_False by (intros [?|[? [=]]]; done).
  rewrite decide_False by lia.
  rewrite Hback. cbn [bind]. by rewrite Hinv.
Qed.

(** C1, amended. For an address with at most one transparent receiver,
    whose [Unknown] entries have unknown typecodes and non-empty payloads
    and are visited by the encoder in ascending order of typecode, and
    for a prefix of at most 16 bytes that bech32 writes back unchanged:
    the encoder builds its buffer, and when that buffer has a length the
    jumble accepts (48 to 4194368 bytes), encoding succeeds and decoding
    the result returns exactly the address. *)
Theorem EncodeUnified_DecodeUnified (visit : list (N * list byte))
    (a : UnifiedAddress) (hrp : string) :
  wf_UnifiedAddress a →
  ¬ (is_Some (P2pkh a) ∧ is_Some (P2sh a)) →
  wf_Unknown a →
  range_of (Unknown a) visit → ascending visit →
  (length (list_byte_of_string hrp) ≤ 16)%nat →
  bech32_hrp hrp = true →
  ∃ rBytes, EncodeUnified_rBytes visit a hrp = Ok rBytes ∧
    (48 ≤ N.of_nat (length rBytes) ≤ 4194368 →
     ∃ s, EncodeUnified visit a hrp = Ok s ∧ DecodeUnified s hrp = Ok a).
Proof.
  intros Hwf Hboth Hunknown Hrange Hasc Hlen Hhrp.
  eexists. split; [by apply EncodeUnified_rBytes_ok|].
  intros Hjumble.
  destruct (DecodeUnified_of_encoded _ hrp Hhrp Hjumble)
    as (j & d & s & Hj & Hd & Hs & Hdec).
  exists s. split.
  - unfold EncodeUnified. rewrite EncodeUnified_rBytes_ok by done.
    cbn [bind]. rewrite Hj. cbn [bind]. rewrite Hd. cbn [bind].
    by rewrite Hs.
  - rewrite Hdec. by apply DecodeUnified_decoded_rBytes.
Qed.

End roundtrip.

(** ** The small instance meets the contracts *)

Section simple_facts.
Import compactsize.

Lemma simple_F4Jumble_inverse (m j : list byte) :
  simple.F4Jumble m = Ok j → simple.F4Jumble j = Ok m ∧ length j = length m.
Proof.
  unfold simple.F4Jumble, simple.jumbleLength.
  destruct (_ && _) eqn:Hlen; [|done]. intros [= <-].
  rewrite length_rev, Hlen. by rewrite rev_involutive.
Qed.

Lemma simple_join5_split5 (j : list byte) :
  simple.join5 false (flat_map simple.split5 j) = Ok j.
Proof.
  induction j as [|b j IH]; [done|].
  cbn [flat_map simple.split5 app simple.join5]. rewrite IH. cbn [bind].
  do 2 f_equal. by destruct b.
Qed.

Lemma length_flat_map_split5 (j : list byte) :
  length (flat_map simple.split5 j) = (2 * length j)%nat.
Proof. induction j as [|b j IH]; [done|]. simpl in *. lia. Qed.

Lemma simple_char_of_value (b : byte) (v : byte) :
  v ∈ simple.split5 b →
  ∃ c, simple.char_of v = Some c ∧ simple.value_of c = Some v
       ∧ c ≠ "1"%char.
Proof.
  unfold simple.split5.
  intros [->| ->%list_elem_of_singleton]%elem_of_cons;
    destruct b; (eexists; split; [reflexivity|split; [reflexivity|done]]).
Qed.

Lemma simple_decode_chars_cons (c c' : ascii) (s' : string) :
  simple.decode_chars (String c (String c' s')) =
  (v ← simple.value_of c;
   '(d, ver) ← simple.decode_chars (String c' s'); Some (v :: d, ver)).
Proof. reflexivity. Qed.

Lemma simple_decode_chars (tag : ascii) (ver : Version) (j : list byte) :
  (tag = "M"%char ∧ ver = VersionM) →
  ∃ s, simple.encode_chars tag (flat_map simple.split5 j) = Some s
       ∧ simple.decode_chars s = Some (flat_map simple.split5 j, ver).
Proof.
  intros [-> ->].
  assert (Hgen : ∀ d : list byte,
    (∀ v, v ∈ d → ∃ c, simple.char_of v = Some c ∧ simple.value_of c = Some v
                       ∧ c ≠ "1"%char) →
    ∃ s, simple.encode_chars "M" d = Some s
         ∧ simple.decode_chars s = Some (d, VersionM)).
  { induction d as [|v d IH]; intros Hd.
    - by eexists.
    - destruct (Hd v) as (c & Hc & Hv & _); [by left|].
      destruct IH as (s & Hs & Hdec); [intros w Hw; apply Hd; by right|].
      exists (String c s). split.
      + cbn [simple.encode_chars]. by rewrite Hc, Hs.
      + destruct s as [|c' s']; [by destruct d|].
        by rewrite simple_decode_chars_cons, Hv, Hdec. }
  apply Hgen. intros v Hv.
  apply list_elem_of_In, in_flat_map in Hv as (b & _ & Hv).
  apply (simple_char_of_value b). by apply list_elem_of_In.
Qed.

Lemma simple_decode_string (hrp s : string) (d : list byte) (ver : Version) :
  simple.has_separator hrp = false →
  simple.decode_chars s = Some (d, ver) →
  simple.decode_string (hrp +:+ String "1" s) = Some (hrp, d, ver).
Proof.
  intros Hsep Hs. induction hrp as [|c hrp IH].
  - change (EmptyString +:+ ?x) with x. cbn [simple.decode_string].
    rewrite decide_True by done.
    by rewrite Hs.
  - unfold simple.has_separator in *.
    apply bool_decide_eq_false in Hsep. cbn in Hsep.
    rewrite Exists_cons in Hsep.
    change (String c hrp +:+ ?x) with (String c (hrp +:+ x)).
    cbn [simple.decode_string].
    rewrite decide_False by tauto.
    rewrite IH; [done|]. apply bool_decide_eq_false. tauto.
Qed.

Lemma simple_EncodeM_decodes (hrp : string) (j : list byte) :
  simple.bech32_hrp hrp = true →
  ∃ s, simple.EncodeM hrp (flat_map simple.split5 j) = Ok s
       ∧ simple.DecodeGeneric s = (hrp, flat_map simple.split5 j, VersionM, None).
Proof.
  unfold simple.bech32_hrp.
  intros [Hne%negb_true_iff%bool_decide_eq_false Hsep%negb_true_iff]%andb_true_iff.
  destruct (simple_decode_chars "M" VersionM j) as (s & Hs & Hdec); [done|].
  exists (hrp +:+ String "1" s). unfold simple.EncodeM. rewrite Hs.
  split; [done|]. unfold simple.DecodeGeneric.
  rewrite (simple_decode_string hrp s _ VersionM) by done.
  by rewrite decide_False.
Qed.

Lemma simple_contracts : CollaboratorContracts simple.collaborators.
Proof.
  split; cbn.
  - intros m [Hlo Hhi]. exists (rev m).
    unfold simple.F4Jumble, simple.jumbleLength.
    apply N.leb_le in Hlo, Hhi. by rewrite Hlo, Hhi.
  - apply simple_F4Jumble_inverse.
  - intros j. exists (flat_map simple.split5 j).
    unfold simple.ConvertBits. cbn.
    split; [done|]. split; [apply simple_join5_split5|].
    rewrite length_flat_map_split5. lia.
  - intros hrp j d Hhrp. unfold simple.ConvertBits at 1. cbn.
    intros [= <-]. by apply simple_EncodeM_decodes.
Qed.

End simple_facts.

(** ** Round trip on concrete addresses *)

Section roundtrip_examples.
Import unifiedaddress examples.

Lemma twoUnknown_wf : wf_UnifiedAddress twoUnknown ∧ wf_Unknown twoUnknown.
Proof.
  split; [split; [|split; [|split; [|split]]]|].
  - by intros p [= <-].
  - done.
  - by intros p [= <-].
  - by intros p [= <-].
  - unfold wf_UnifiedAddress. refine (bool_decide_unpack _ _). by vm_compute.
  - unfold wf_Unknown. refine (bool_decide_unpack _ _). by vm_compute.
Qed.

Lemma twoUnknown_range :
  range_of (Unknown twoUnknown) visitUp ∧ range_of (Unknown twoUnknown) visitDown.
Proof.
  unfold range_of.
  assert (map_to_list (Unknown twoUnknown) = visitUp) as -> by by vm_compute.
  split; [done|]. apply perm_swap.
Qed.

Lemma visitUp_ascending : ascending visitUp.
Proof. refine (bool_decide_unpack _ _). by vm_compute. Qed.

Lemma EncodeUnified_DecodeUnified_witness :
  ∃ s, EncodeUnified (C := simple.collaborators) visitUp twoUnknown "u" = Ok s
       ∧ DecodeUnified (C := simple.collaborators) s "u" = Ok twoUnknown.
Proof.
  destruct (EncodeUnified_DecodeUnified (HC := simple_contracts)
              visitUp twoUnknown "u") as (rBytes & HrBytes & Hs).
  - apply twoUnknown_wf.
  - by intros [_ [? [=]]].
  - apply twoUnknown_wf.
  - apply twoUnknown_range.
  - apply visitUp_ascending.
  - vm_compute. lia.
  - reflexivity.
  - apply Hs. vm_compute in HrBytes. injection HrBytes as <-. by vm_compute.
Defined.

Lemma saplingOnly_wf : wf_UnifiedAddress saplingOnly ∧ wf_Unknown saplingOnly.
Proof.
  split; [split; [|split; [|split; [|split]]]|]; try done.
  by intros p [= <-].
Qed.

(** C1 as stated fails: with a prefix of 20 bytes the padding appended
    by the encoder has 20 bytes, the decoder compares the last 16 bytes
    with it, and the string the encoder returns is refused. *)
Lemma roundtrip_fails_long_prefix :
  wf_UnifiedAddress saplingOnly ∧ wf_Unknown saplingOnly
  ∧ ¬ (is_Some (P2pkh saplingOnly) ∧ is_Some (P2sh saplingOnly))
  ∧ range_of (Unknown saplingOnly) []
  ∧ ∃ s, EncodeUnified (C := simple.collaborators) [] saplingOnly longHrp = Ok s
         ∧ DecodeUnified (C := simple.collaborators) s longHrp
           = Err ErrInvalidPadding
         ∧ DecodeUnified (C := simple.collaborators) s longHrp ≠ Ok saplingOnly
         ∧ ∃ rBytes, EncodeUnified_rBytes [] saplingOnly longHrp = Ok rBytes
                     ∧ DecodeUnified_decoded rBytes longHrp = Err ErrInvalidPadding.
Proof.
  split; [apply saplingOnly_wf|]. split; [apply saplingOnly_wf|].
  split; [by intros [[? [=]] _]|].
  split; [unfold range_of; cbn; by rewrite map_to_list_empty|].
  eexists. split; [by vm_compute|]. split; [by vm_compute|].
  split; [by vm_compute|].
  eexists. split; [by vm_compute|]. by vm_compute.
Qed.

End roundtrip_examples.

(** ** The checks of the decoder *)

Section decoder_checks.
Import compactsize unifiedaddress examples.

Lemma decodeItem_Err (rest : list byte) (receivers : gmap N (list byte))
    (prevType : N) (e : error) :
  decodeItem rest receivers prevType = Err e → e ≠ ErrInvalidPadding.
Proof.
  unfold decodeItem. repeat case_match; try done; by intros [= <-].
Qed.

Lemma decodeItems_Err (fuel : nat) (rest : list byte)
    (receivers : gmap N (list byte)) (prevType : N) (e : error) :
  decodeItems fuel rest receivers prevType = Err e → e ≠ ErrInvalidPadding.
Proof.
  revert rest receivers prevType.
  induction fuel as [|fuel IH]; intros rest receivers prevType.
  - by destruct rest.
  - destruct rest as [|b rest]; [done|]. cbn [decodeItems].
    destruct (decodeItem (b :: rest) receivers prevType)
      as [[[r m] p]|e'| |] eqn:Hitem; cbn [bind]; try done.
    + apply IH.
    + intros [= <-]. by apply decodeItem_Err in Hitem.
Qed.

(** A failing first pass fails the loop. *)
Lemma decodeItems_first_Err (fuel : nat) (rest : list byte)
    (receivers : gmap N (list byte)) (prevType : N) (e : error) :
  rest ≠ [] →
  decodeItem rest receivers prevType = Err e →
  (length rest ≤ fuel)%nat →
  decodeItems fuel rest receivers prevType = Err e.
Proof.
  intros Hrest Hitem Hfuel.
  destruct rest as [|b rest]; [done|].
  destruct fuel as [|fuel]; [simpl in Hfuel; lia|].
  cbn [decodeItems]. by rewrite Hitem.
Qed.

(** C7. The decoder splits the jumbled-back buffer into its last 16 bytes
    and the rest, and fails with the padding error unless these 16 bytes
    are the bytes of the expected prefix followed by zero bytes up to 16
    (so always for a prefix longer than 16 bytes); it fails with that error
    only then. The block compared with is [padding], which is also what
    the encoder appends to its buffer. *)
Theorem DecodeUnified_padding_check (decoded : list byte) (expectedHrp : string) :
  (16 ≤ length decoded)%nat →
  let rest := take (length decoded - 16) decoded in
  let suffix := drop (length decoded - 16) decoded in
  let hrpBytes := list_byte_of_string expectedHrp in
  decoded = rest ++ suffix ∧ length suffix = 16%nat
  ∧ (¬ ((length hrpBytes ≤ 16)%nat
        ∧ suffix = hrpBytes ++ replicate (16 - length hrpBytes) x00) →
     DecodeUnified_decoded decoded expectedHrp = Err ErrInvalidPadding)
  ∧ (DecodeUnified_decoded decoded expectedHrp = Err ErrInvalidPadding
     ↔ suffix ≠ padding expectedHrp)
  ∧ (suffix = padding expectedHrp →
     DecodeUnified_decoded decoded expectedHrp =
     (let? receivers := decodeItems (length rest) rest ∅ NoPreviousItem in
      Ok (addressOf receivers)))
  ∧ (∀ visit addr rBytes,
       EncodeUnified_rBytes visit addr expectedHrp = Ok rBytes →
       ∃ items, rBytes = items ++ padding expectedHrp).
Proof.
  intros Hlen rest suffix hrpBytes.
  assert (Hsuffix : length suffix = 16%nat).
  { unfold suffix. rewrite length_drop. lia. }
  assert (Hiff : DecodeUnified_decoded decoded expectedHrp = Err ErrInvalidPadding
                 ↔ suffix ≠ padding expectedHrp).
  { rewrite DecodeUnified_decoded_split by done. fold suffix rest.
    case_decide as Hs; [done|]. split; [|done]. cbn zeta.
    destruct (decodeItems _ _ _ _) eqn:Hloop; cbn [bind]; try done.
    intros [= ->]. by apply decodeItems_Err in Hloop. }
  split; [symmetry; apply take_drop|]. split; [done|].
  split; [|split; [done|split]].
  - intros Hnot. apply Hiff. intros Heq. apply Hnot.
    assert (length hrpBytes ≤ 16)%nat as Hshort.
    { apply (f_equal length) in Heq. rewrite length_padding in Heq.
      fold hrpBytes in Heq. lia. }
    split; [done|]. by rewrite Heq, padding_short.
  - intros Heq. rewrite DecodeUnified_decoded_split by done. fold suffix rest.
    by rewrite decide_False by (intros Hne; by apply Hne).
  - intros visit addr rBytes.
    destruct (decide (is_Some (P2pkh addr) ∧ is_Some (P2sh addr))) as [Hboth|Hboth].
    + by rewrite EncodeUnified_rBytes_both.
    + rewrite EncodeUnified_rBytes_ok by done. intros [= <-]. by eexists.
Qed.

Lemma DecodeUnified_padding_check_witness :
  DecodeUnified_decoded (replicate 48 x00) "u" = Err ErrInvalidPadding.
Proof.
  destruct (DecodeUnified_padding_check (replicate 48 x00) "u")
    as (_ & _ & Hfail & _).
  - vm_compute. lia.
  - apply Hfail. intros [_ Heq]. by vm_compute in Heq.
Defined.

(** C6. For an item whose typecode and length were parsed, when the
    typecode is 0, 1, 2 or 3 and the declared length is not the fixed
    length of that typecode (20, 20, 43, 43), the pass and the whole loop
    fail with the length error; for any other typecode there is never a
    length error, and the item is accepted with whatever length it
    declares when the payload is there, the typecode is new and the order
    check passes. *)
Theorem decodeItem_length_check (rest remaining1 remaining2 : list byte)
    (receivers : gmap N (list byte)) (prevType itemType itemLen : N) :
  ParseCompactSize rest true = Ok (itemType, remaining1) →
  ParseCompactSize remaining1 true = Ok (itemLen, remaining2) →
  (getExpectedLength P2PKHItem = 20 ∧ getExpectedLength P2SHItem = 20
   ∧ getExpectedLength SaplingItem = 43 ∧ getExpectedLength OrchardItem = 43)
  ∧ (itemType ≤ 3 → itemLen ≠ getExpectedLength itemType →
     decodeItem rest receivers prevType = Err (ErrIncorrectItemLength itemType)
     ∧ ∀ fuel, (length rest ≤ fuel)%nat →
         decodeItems fuel rest receivers prevType
         = Err (ErrIncorrectItemLength itemType))
  ∧ (3 < itemType →
     (∀ t, decodeItem rest receivers prevType ≠ Err (ErrIncorrectItemLength t))
     ∧ (itemLen ≤ N.of_nat (length remaining2) →
        receivers !! itemType = None →
        prevType = NoPreviousItem ∨ prevType < itemType →
        decodeItem rest receivers prevType =
        Ok (drop (N.to_nat itemLen) remaining2,
            <[itemType := take (N.to_nat itemLen) remaining2]> receivers,
            itemType))).
Proof.
  intros Htype Hlen. split; [done|]. split.
  - intros Hknown Hne.
    assert (Hfail : decodeItem rest receivers prevType
                    = Err (ErrIncorrectItemLength itemType)).
    { unfold decodeItem. rewrite Htype, Hlen.
      rewrite decide_True; [done|]. split; [|done].
      unfold getExpectedLength, P2PKHItem, P2SHItem, SaplingItem, OrchardItem.
      repeat case_decide; lia. }
    split; [exact Hfail|]. intros fuel Hfuel.
    apply decodeItems_first_Err; [|done..].
    intros ->. by vm_compute in Htype.
  - intros Hunknown. unfold decodeItem. rewrite Htype, Hlen.
    assert (Hexp : getExpectedLength itemType = 0).
    { unfold getExpectedLength, P2PKHItem, P2SHItem, SaplingItem, OrchardItem.
      repeat case_decide; try done; lia. }
    rewrite Hexp.
    destruct (decide (0 < 0 ∧ itemLen ≠ 0)) as [[? _]|_]; [lia|]. split.
    + intros t. repeat case_decide; done.
    + intros Hpresent Hnew Hprev.
      assert (Hint : (int_of_uint64 itemLen ≤ Z.of_nat (length remaining2))%Z).
      { unfold int_of_uint64. destruct (itemLen <? 2 ^ 63); [lia|].
        assert (itemLen `mod` 2 ^ 64 < 2 ^ 64) by by apply N.mod_upper_bound.
        lia. }
      rewrite decide_False by lia.
      rewrite decide_False by lia.
      rewrite decide_False by (rewrite Hnew; by intros [? ?]).
      rewrite decide_False; [done|]. intros [? ?]. destruct Hprev; [done|lia].
Qed.

Lemma decodeItem_length_check_witness :
  decodeItem [x02; x14; x00] ∅ NoPreviousItem = Err (ErrIncorrectItemLength 2)
  ∧ decodeItem [x09; x01; xaa] ∅ NoPreviousItem = Ok ([], {[ 9 := [xaa] ]}, 9).
Proof.
  split.
  - destruct (decodeItem_length_check [x02; x14; x00] [x14; x00] [x00]
                ∅ NoPreviousItem 2 20) as (_ & Hknown & _); [done|done|].
    apply Hknown; by vm_compute.
  - destruct (decodeItem_length_check [x09; x01; xaa] [x01; xaa] [xaa]
                ∅ NoPreviousItem 9 1) as (_ & _ & Hunknown); [done|done|].
    destruct Hunknown as [_ Hok]; [by vm_compute|].
    rewrite Hok; [done|by vm_compute|done|by left].
Defined.

End decoder_checks.

(** ** The order of the unknown items *)

Section unknown_order.
Import compactsize unifiedaddress examples.

(** C2 fails on the code. The unknown items are emitted in the order in
    which [range] visits the map. For the address [twoUnknown], whose
    unknown typecodes are 4 and 5, visiting 5 before 4 is one of the
    orders [range] may take: the item of typecode 5 is then emitted before
    the item of typecode 4, the buffer differs from the one of the
    ascending visit, and the decoder refuses it, and the string encoded
    from it, as out of order. *)
Theorem EncodeUnified_unknown_range_order :
  range_of (Unknown twoUnknown) visitDown
  ∧ range_of (Unknown twoUnknown) visitUp
  ∧ EncodeUnified_rBytes visitDown twoUnknown "u"
    = Ok (itemBytes (P2PKHItem, pkh20) ++ itemBytes (SaplingItem, sapling43)
          ++ itemBytes (OrchardItem, orchard43)
          ++ [x05; x01; x01] ++ [x04; x01; x02] ++ padding "u")
  ∧ EncodeUnified_rBytes visitUp twoUnknown "u"
    = Ok (itemBytes (P2PKHItem, pkh20) ++ itemBytes (SaplingItem, sapling43)
          ++ itemBytes (OrchardItem, orchard43)
          ++ [x04; x01; x02] ++ [x05; x01; x01] ++ padding "u")
  ∧ EncodeUnified_rBytes visitDown twoUnknown "u"
    ≠ EncodeUnified_rBytes visitUp twoUnknown "u"
  ∧ (∀ rBytes, EncodeUnified_rBytes visitDown twoUnknown "u" = Ok rBytes →
       DecodeUnified_decoded rBytes "u" = Err ErrItemsOutOfOrder)
  ∧ (let? encoded := EncodeUnified (C := simple.collaborators) visitDown twoUnknown "u" in
     DecodeUnified (C := simple.collaborators) encoded "u")
    = Err ErrItemsOutOfOrder.
Proof.
  split; [apply twoUnknown_range|]. split; [apply twoUnknown_range|].
  split; [by vm_compute|]. split; [by vm_compute|].
  split; [by vm_compute|]. split; [|by vm_compute].
  intros rBytes HrBytes. vm_compute in HrBytes. injection HrBytes as <-.
  by vm_compute.
Qed.

(** In general the unknown items follow the visiting order, after the
    known items. *)
Lemma EncodeUnified_rBytes_order (visit : list (N * list byte))
    (addr : UnifiedAddress) (hrp : string) (rBytes : list byte) :
  EncodeUnified_rBytes visit addr hrp = Ok rBytes →
  rBytes =
    flat_map itemBytes
      (fieldItem P2PKHItem (P2pkh addr) ++ fieldItem P2SHItem (P2sh addr)
       ++ fieldItem SaplingItem (Sapling addr) ++ fieldItem OrchardItem (Orchard addr))
    ++ flat_map itemBytes (filter nonEmpty visit) ++ padding hrp.
Proof.
  destruct (decide (is_Some (P2pkh addr) ∧ is_Some (P2sh addr))) as [Hboth|Hboth].
  - by rewrite EncodeUnified_rBytes_both.
  - rewrite EncodeUnified_rBytes_ok by done. intros [= <-].
    unfold emittedItems. rewrite !app_assoc, flat_map_app.
    by rewrite <- !app_assoc.
Qed.

(** C3 fails on the code. In [sentinelBuffer] an item of typecode 5
    follows an item of typecode [0xffffffff], which is the value of
    [NoPreviousItem]: the order check is skipped for it and the buffer, and
    the string that encodes it, are decoded instead of being refused as out
    of order. *)
Theorem DecodeUnified_order_check_skipped :
  sentinelBuffer
  = itemBytes (SaplingItem, sapling43) ++ itemBytes (0xffffffff, [xaa])
    ++ itemBytes (5, [xbb]) ++ padding "u"
  ∧ DecodeUnified_decoded sentinelBuffer "u" = Ok sentinelAddress
  ∧ decodeItem (itemBytes (5, [xbb]))
      (<[0xffffffff := [xaa]]> (<[SaplingItem := sapling43]> ∅)) 0xffffffff
    = Ok ([], <[5 := [xbb]]> (<[0xffffffff := [xaa]]> (<[SaplingItem := sapling43]> ∅)), 5)
  ∧ (let? jumbledBytes := simple.F4Jumble sentinelBuffer in
     let? converted := simple.ConvertBits jumbledBytes 8 5 true in
     let? encoded := simple.EncodeM "u" converted in
     DecodeUnified (C := simple.collaborators) encoded "u")
    = Ok sentinelAddress.
Proof.
  split; [by vm_compute|]. split; [by vm_compute|]. split; by vm_compute.
Qed.

(** The parts of C3 that hold: a typecode seen before is a duplicate; a
    typecode not above the previous one is out of order when the previous
    typecode is not [0xffffffff]; the first item always passes the order
    check. *)
Lemma checkItem_duplicate (itemType : N) (value old : list byte)
    (receivers : gmap N (list byte)) (prevType : N) :
  expectedLength (itemType, value) →
  receivers !! itemType = Some old →
  checkItem (itemType, value) receivers prevType
  = Err (ErrDuplicateItem (getItemName itemType)).
Proof.
  unfold expectedLength, checkItem. cbn [fst snd]. intros Hlen Hold.
  rewrite decide_False by (intros [? ?]; lia).
  by rewrite decide_True by by rewrite Hold.
Qed.

Lemma checkItem_out_of_order (itemType : N) (value : list byte)
    (receivers : gmap N (list byte)) (prevType : N) :
  expectedLength (itemType, value) →
  receivers !! itemType = None →
  prevType ≠ NoPreviousItem → itemType ≤ prevType →
  checkItem (itemType, value) receivers prevType = Err ErrItemsOutOfOrder.
Proof.
  unfold expectedLength, checkItem. cbn [fst snd]. intros Hlen Hnew Hprev Hle.
  rewrite decide_False by (intros [? ?]; lia).
  rewrite decide_False by (rewrite Hnew; by intros [? ?]).
  by rewrite decide_True.
Qed.

Lemma checkItem_first (itemType : N) (value : list byte) :
  expectedLength (itemType, value) →
  checkItem (itemType, value) ∅ NoPreviousItem
  = Ok ({[ itemType := value ]}, itemType).
Proof.
  unfold expectedLength, checkItem. cbn [fst snd]. intros Hlen.
  rewrite decide_False by (intros [? ?]; lia).
  rewrite decide_False by (rewrite lookup_empty; by intros [? ?]).
  by rewrite decide_False by (by intros [? _]).
Qed.

End unknown_order.

(** ** Unknown entries with an empty payload *)

Section empty_unknown.
Import unifiedaddress examples.

Lemma range_of_filter (m : gmap N (list byte)) (visit : list (N * list byte)) :
  range_of m visit → range_of (filter nonEmpty m) (filter nonEmpty visit).
Proof.
  unfold range_of. intros ->.
  rewrite map_filter_alt. symmetry. apply map_to_list_to_map.
  apply (sublist_NoDup _ (map_to_list m).*1).
  - apply NoDup_fst_map_to_list.
  - apply fmap_sublist, sublist_filter.
Qed.

Lemma filter_Forall_id {A} (P : A → Prop) `{!∀ x, Decision (P x)} (l : list A) :
  Forall P l → filter P l = l.
Proof.
  induction 1 as [|x l Hx _ IH]; [done|].
  by rewrite filter_cons_True, IH.
Qed.

Lemma filter_Forall_nil {A} (P : A → Prop) `{!∀ x, Decision (P x)} (l : list A) :
  Forall (λ x, ¬ P x) l → filter P l = [].
Proof.
  induction 1 as [|x l Hx _ IH]; [done|].
  by rewrite filter_cons_False.
Qed.

(** Every visiting order of the map without its empty entries is the rest
    of a visiting order of the whole map. *)
Lemma range_of_filter_inv (m : gmap N (list byte)) (visit' : list (N * list byte)) :
  range_of (filter nonEmpty m) visit' →
  ∃ visit, range_of m visit ∧ filter nonEmpty visit = visit'.
Proof.
  intros Hrange.
  assert (Hperm : visit' ≡ₚ filter nonEmpty (map_to_list m)).
  { unfold range_of in Hrange. rewrite Hrange. symmetry.
    apply (range_of_filter m (map_to_list m)). by unfold range_of. }
  exists (visit' ++ filter (λ x, ¬ nonEmpty x) (map_to_list m)). split.
  - unfold range_of. rewrite Hperm. apply filter_app_complement.
  - rewrite filter_app, filter_Forall_id, filter_Forall_nil.
    + apply app_nil_r.
    + apply Forall_forall. by intros x [? _]%list_elem_of_filter.
    + apply Forall_forall. intros x Hx. rewrite Hperm in Hx.
      by apply list_elem_of_filter in Hx as [? _].
Qed.

Lemma emittedItems_withoutEmptyUnknown (visit : list (N * list byte))
    (a : UnifiedAddress) :
  emittedItems (filter nonEmpty visit) (withoutEmptyUnknown a) = emittedItems visit a.
Proof.
  unfold emittedItems, withoutEmptyUnknown. cbn [P2pkh P2sh Sapling Orchard].
  do 4 f_equal. rewrite list_filter_filter. apply list_filter_iff. tauto.
Qed.

Lemma EncodeUnified_rBytes_withoutEmptyUnknown (visit : list (N * list byte))
    (a : UnifiedAddress) (hrp : string) :
  EncodeUnified_rBytes visit a hrp
  = EncodeUnified_rBytes (filter nonEmpty visit) (withoutEmptyUnknown a) hrp.
Proof.
  destruct (decide (is_Some (P2pkh a) ∧ is_Some (P2sh a))) as [Hboth|Hboth].
  - by rewrite !EncodeUnified_rBytes_both.
  - rewrite !EncodeUnified_rBytes_ok by done.
    by rewrite emittedItems_withoutEmptyUnknown.
Qed.

Lemma DecodeUnified_decoded_long_prefix (decoded : list byte) (hrp : string) :
  (16 < length (list_byte_of_string hrp))%nat →
  (16 ≤ length decoded)%nat →
  DecodeUnified_decoded decoded hrp = Err ErrInvalidPadding.
Proof.
  intros Hhrp Hlen. rewrite DecodeUnified_decoded_split by done.
  rewrite decide_True; [done|]. intros Heq%(f_equal length).
  rewrite length_drop, length_padding in Heq. lia.
Qed.

(** Whatever is decoded from the buffer of an address is the address of
    its emitted items. *)
Lemma DecodeUnified_decoded_emitted (visit : list (N * list byte))
    (a a' : UnifiedAddress) (hrp : string) :
  wf_UnifiedAddress a → range_of (Unknown a) visit →
  DecodeUnified_decoded (flat_map itemBytes (emittedItems visit a) ++ padding hrp) hrp
  = Ok a' →
  a' = addressOf (list_to_map (emittedItems visit a))
  ∧ NoDup (emittedItems visit a).*1.
Proof.
  intros Hwf Hrange.
  destruct (decide (length (list_byte_of_string hrp) ≤ 16)%nat) as [Hhrp|Hhrp].
  - rewrite DecodeUnified_decoded_app by done.
    destruct (decodeItems _ _ _ _) as [m| | |] eqn:Hloop; cbn [bind]; try done.
    intros [= <-].
    apply decodeItems_emitted in Hloop as [-> Hnodup]; [done|].
    by apply emittedItems_typed.
  - rewrite DecodeUnified_decoded_long_prefix; [done|lia|].
    rewrite length_app, length_padding. lia.
Qed.

Lemma emitted_omits_empty (visit : list (N * list byte)) (a : UnifiedAddress)
    (k : N) (v : list byte) :
  range_of (Unknown a) visit → Unknown a !! k = Some [] →
  (k, v) ∈ emittedItems visit a → ¬ unknownType (k, v).
Proof.
  intros Hrange Hempty Hin [H0 [H1 [H2 H3]]]. cbn [fst] in *.
  apply elem_of_emittedItems in Hin
    as [[? _]|[[? _]|[[? _]|[[? _]|[Hne Hin]]]]]; try done.
  apply (range_of_lookup (Unknown a)) in Hin; [|done].
  rewrite Hempty in Hin. by injection Hin as <-.
Qed.

Context {C : Collaborators} {HC : CollaboratorContracts C}.

(** A decoded string that [EncodeUnified] wrote was decoded from the
    buffer [EncodeUnified] built. *)
Lemma DecodeUnified_EncodeUnified_inv (visit : list (N * list byte))
    (a a' : UnifiedAddress) (hrp s : string) :
  bech32_hrp hrp = true →
  EncodeUnified visit a hrp = Ok s → DecodeUnified s hrp = Ok a' →
  ∃ rBytes, EncodeUnified_rBytes visit a hrp = Ok rBytes
            ∧ DecodeUnified_decoded rBytes hrp = Ok a'.
Proof.
  intros Hhrp. unfold EncodeUnified.
  destruct (EncodeUnified_rBytes visit a hrp) as [rBytes| | |]; cbn [bind]; try done.
  destruct (F4Jumble rBytes) as [j| | |] eqn:Hj; cbn [bind]; try done.
  destruct (ConvertBits j 8 5 true) as [d| | |] eqn:Hd; cbn [bind]; try done.
  destruct (EncodeM hrp d) as [s'| | |] eqn:Hs; cbn [bind]; try done.
  intros [= ->].
  destruct (F4Jumble_inverse _ _ Hj) as [Hinv _].
  destruct (ConvertBits_8_5 j) as (d' & Hd' & Hback & _).
  rewrite Hd in Hd'. injection Hd' as <-.
  destruct (EncodeM_decodes hrp j d Hhrp Hd) as (s' & Hs' & Hdec).
  rewrite Hs in Hs'. injection Hs' as <-.
  unfold DecodeUnified. rewrite Hdec.
  repeat case_decide; try done.
  rewrite Hback. cbn [bind]. rewrite Hinv. cbn [bind].
  intros Hdecoded. by exists rBytes.
Qed.

(** C9. An [Unknown] entry with an empty payload is not emitted: no
    emitted item has its typecode, the buffer and the string are those of
    the address without its empty [Unknown] entries, visited in the given
    order without these entries (and every visiting order of that address
    arises so), and no address decoded from the string has an [Unknown]
    entry of that typecode. *)
Theorem EncodeUnified_omits_empty_unknown (visit : list (N * list byte))
    (a : UnifiedAddress) (hrp : string) :
  wf_UnifiedAddress a → range_of (Unknown a) visit → bech32_hrp hrp = true →
  range_of (Unknown (withoutEmptyUnknown a)) (filter nonEmpty visit)
  ∧ (∀ visit', range_of (Unknown (withoutEmptyUnknown a)) visit' →
       ∃ visit0, range_of (Unknown a) visit0 ∧ filter nonEmpty visit0 = visit')
  ∧ EncodeUnified_rBytes visit a hrp
    = EncodeUnified_rBytes (filter nonEmpty visit) (withoutEmptyUnknown a) hrp
  ∧ EncodeUnified visit a hrp
    = EncodeUnified (filter nonEmpty visit) (withoutEmptyUnknown a) hrp
  ∧ (∀ k, Unknown a !! k = Some [] →
       (k ∉ (filter nonEmpty visit).*1)
       ∧ (∀ s a', EncodeUnified visit a hrp = Ok s → DecodeUnified s hrp = Ok a' →
            Unknown a' !! k = None)).
Proof.
  intros Hwf Hrange Hhrp.
  split; [by apply range_of_filter|].
  split; [apply range_of_filter_inv|].
  split; [apply EncodeUnified_rBytes_withoutEmptyUnknown|].
  split.
  { unfold EncodeUnified. by rewrite EncodeUnified_rBytes_withoutEmptyUnknown. }
  intros k Hempty. split.
  - intros ([k' v] & -> & [Hne Hin]%list_elem_of_filter)%list_elem_of_fmap.
    apply (range_of_lookup (Unknown a)) in Hin; [|done].
    cbn [fst] in Hempty. rewrite Hempty in Hin. injection Hin as <-. by apply Hne.
  - intros s a' Hs Hdec.
    destruct (DecodeUnified_EncodeUnified_inv _ _ _ _ _ Hhrp Hs Hdec)
      as (rBytes & HrBytes & Hdecoded).
    destruct (decide (is_Some (P2pkh a) ∧ is_Some (P2sh a))) as [Hboth|Hboth].
    { by rewrite EncodeUnified_rBytes_both in HrBytes. }
    rewrite EncodeUnified_rBytes_ok in HrBytes by done.
    injection HrBytes as <-.
    apply DecodeUnified_decoded_emitted in Hdecoded as [-> Hnodup]; [|done..].
    cbn [addressOf Unknown]. apply map_lookup_filter_None_2. right.
    intros v Hv%elem_of_list_to_map_2.
    by apply (emitted_omits_empty visit a).
Qed.

Lemma emptyUnknown_facts :
  wf_UnifiedAddress emptyUnknown
  ∧ range_of (Unknown emptyUnknown) [(6, [x09]); (7, [])].
Proof.
  split; [split; [|split; [|split; [|split]]]|].
  - done.
  - done.
  - by intros p [= <-].
  - done.
  - unfold wf_UnifiedAddress. refine (bool_decide_unpack _ _). by vm_compute.
  - unfold range_of.
    assert (map_to_list (Unknown emptyUnknown) = [(6, [x09]); (7, [])]) as ->;
      by vm_compute.
Qed.

End empty_unknown.

Lemma EncodeUnified_omits_empty_unknown_witness :
  ∃ s a', unifiedaddress.EncodeUnified (C := simple.collaborators)
            [(6, [x09]); (7, [])] examples.emptyUnknown "u" = Ok s
          ∧ unifiedaddress.DecodeUnified (C := simple.collaborators) s "u" = Ok a'
          ∧ unifiedaddress.Unknown a' !! 7 = None.
Proof.
  destruct (EncodeUnified_omits_empty_unknown (HC := simple_contracts)
              [(6, [x09]); (7, [])] examples.emptyUnknown "u")
    as (_ & _ & _ & _ & Hnever).
  - apply emptyUnknown_facts.
  - apply emptyUnknown_facts.
  - reflexivity.
  - destruct (Hnever 7) as [_ Hdecoded]; [by vm_compute|].
    assert (∃ s a', unifiedaddress.EncodeUnified (C := simple.collaborators)
                      [(6, [x09]); (7, [])] examples.emptyUnknown "u" = Ok s
                    ∧ unifiedaddress.DecodeUnified (C := simple.collaborators) s "u"
                      = Ok a') as (s & a' & Hs & Ha').
    { eexists _, _. split; [by vm_compute|]. by vm_compute. }
    exists s, a'. split; [done|]. split; [done|]. by apply (Hdecoded s a').
Defined.

(** ** The address dispatcher *)

Section dispatcher.
Import zcashaddress.
Context {C : Collaborators}.

Lemma DecodeAddress_returnsOne (address : string) (network : Network) :
  returnsOne (DecodeAddress address network).
Proof.
  unfold DecodeAddress.
  destruct (CheckDecode address) as [[decoded base58Version] base58Error].
  destruct (DecodeGeneric address)
    as [[[humanReadablePrefix data5] bech32Version] bech32Error].
  match goal with
  | |- context [match bech32Error with Some _ => ?v | None => _ end] =>
      set (us := v)
  end.
  assert (Hus : returnsOne us).
  { unfold us. intros r e.
    destruct (unifiedaddress.DecodeUnified address (unifiedHRP network));
      intros [= <- <-]; (by left) || (by right). }
  clearbody us.
  match goal with
  | |- context [match base58Error with Some _ => ?v | None => _ end] =>
      set (bs := v)
  end.
  assert (Hbs : returnsOne bs).
  { unfold bs. destruct bech32Error; [done|].
    destruct (ConvertBits data5 5 8 true); repeat case_decide; try done;
      intros r' e' [= <- <-]; (by left) || (by right). }
  clearbody bs.
  destruct base58Error; [done|].
  unfold leadMatches.
  repeat (case_decide || case_match); cbn [bind]; try done;
    repeat (case_decide || case_match); cbn [bind]; try done;
    intros r' e' [= <- <-]; (by left) || (by right).
Qed.

End dispatcher.

Section dispatcher_results.
Import zcashaddress.
Context {C : Collaborators}.

(** C10. Every [ZcashAddress] returned by [DecodeAddress] has at most one
    of its five fields non-nil; next to an error all five are nil, and
    without an error exactly one is non-nil. *)
Theorem DecodeAddress_at_most_one_field (address : string) (network : Network)
    (r : ZcashAddress) (e : option error) :
  DecodeAddress address network = Ok (r, e) →
  (fieldsSet r ≤ 1)%nat
  ∧ (is_Some e → allNil r)
  ∧ (e = None → fieldsSet r = 1%nat).
Proof.
  intros Hret.
  destruct (DecodeAddress_returnsOne _ _ _ _ Hret) as [[He ->]|[-> Hone]].
  - split; [cbn; lia|]. split; [done|]. intros ->. by destruct He.
  - split; [lia|]. split; [by intros [? [=]]|done].
Qed.

(** C8, amended. When [DecodeAddress] returns an error, the four
    accessors return no value and that error. Otherwise each returns its
    receiver when the address is that receiver or a Unified Address
    holding it, and no value and no error when the receiver is lacking;
    [DecodeP2pkh] moreover returns the payload of a TEX address when
    [allowTex] is true, and no value and no error for it when [allowTex]
    is false. *)
Theorem accessors_project (address : string) (network : Network)
    (allowTex : bool) (d : ZcashAddress) (e : option error) :
  DecodeAddress address network = Ok (d, e) →
  (∀ err, e = Some err →
     DecodeP2pkh address network allowTex = Ok (None, Some err)
     ∧ DecodeP2sh address network = Ok (None, Some err)
     ∧ DecodeSapling address network = Ok (None, Some err)
     ∧ DecodeOrchard address network = Ok (None, Some err))
  ∧ (e = None →
     (∀ p, P2pkh d = Some p →
        DecodeP2pkh address network allowTex = Ok (Some p, None))
     ∧ (∀ p, P2sh d = Some p → DecodeP2sh address network = Ok (Some p, None))
     ∧ (∀ p, Sapling d = Some p → DecodeSapling address network = Ok (Some p, None))
     ∧ (∀ u, Unified d = Some u →
          DecodeP2pkh address network allowTex = Ok (unifiedaddress.P2pkh u, None)
          ∧ DecodeP2sh address network = Ok (unifiedaddress.P2sh u, None)
          ∧ DecodeSapling address network = Ok (unifiedaddress.Sapling u, None)
          ∧ DecodeOrchard address network = Ok (unifiedaddress.Orchard u, None))
     ∧ (∀ t, Tex d = Some t →
          DecodeP2pkh address network allowTex
          = Ok (if allowTex then Some t else None, None))
     ∧ (P2pkh d = None → Unified d = None → Tex d = None →
        DecodeP2pkh address network allowTex = Ok (None, None))
     ∧ (P2sh d = None → Unified d = None →
        DecodeP2sh address network = Ok (None, None))
     ∧ (Sapling d = None → Unified d = None →
        DecodeSapling address network = Ok (None, None))
     ∧ (Unified d = None → DecodeOrchard address network = Ok (None, None))).
Proof.
  intros Hret.
  unfold DecodeP2pkh, DecodeP2sh, DecodeSapling, DecodeOrchard.
  rewrite Hret. cbn [bind].
  destruct (DecodeAddress_returnsOne _ _ _ _ Hret) as [[[err ->] ->]|[-> Hone]].
  - split; [|done]. by intros ? [= <-].
  - split; [done|]. intros _.
    destruct d as [[p|] [s|] [sa|] [u|] [t|]]; cbn in Hone; try lia;
      cbn [P2pkh P2sh Sapling Unified Tex];
      repeat split; intros; simplify_eq; try done; by destruct allowTex.
Qed.

End dispatcher_results.

Lemma DecodeAddress_at_most_one_field_witness :
  (fieldsSet texAddress ≤ 1)%nat.
Proof.
  apply (DecodeAddress_at_most_one_field (C := simple.collaborators)
           texString zcashaddress.Mainnet texAddress None).
  by vm_compute.
Defined.

Lemma accessors_project_witness :
  zcashaddress.DecodeP2pkh (C := simple.collaborators)
    texString zcashaddress.Mainnet true = Ok (Some examples.pkh20, None)
  ∧ zcashaddress.DecodeOrchard (C := simple.collaborators)
      texString zcashaddress.Mainnet = Ok (None, None).
Proof.
  destruct (accessors_project (C := simple.collaborators)
              texString zcashaddress.Mainnet true texAddress None)
    as [_ Hok]; [by vm_compute|].
  destruct Hok as (_ & _ & _ & _ & Htex & _ & _ & _ & Horchard); [done|].
  split; [by apply Htex|by apply Horchard].
Defined.

(** C8 as stated fails: for a TEX address, which has neither a P2pkh field
    nor a Unified Address, [DecodeP2pkh] returns the TEX payload when
    [allowTex] is true and nothing when it is false; its result is not
    determined by the address and the network. *)
Lemma DecodeP2pkh_depends_on_allowTex :
  zcashaddress.DecodeAddress (C := simple.collaborators)
    texString zcashaddress.Mainnet = Ok (texAddress, None)
  ∧ zcashaddress.P2pkh texAddress = None
  ∧ zcashaddress.Unified texAddress = None
  ∧ zcashaddress.DecodeP2pkh (C := simple.collaborators)
      texString zcashaddress.Mainnet true = Ok (Some examples.pkh20, None)
  ∧ zcashaddress.DecodeP2pkh (C := simple.collaborators)
      texString zcashaddress.Mainnet false = Ok (None, None).
Proof. repeat split; by vm_compute. Qed.

(** * Further properties *)

(** ** CompactSize: round trip, consumption and refusals *)

Section compactsize_more.
Import compactsize.

Lemma WriteCompactSize_allow (n : N) (allow : bool) (bs : list byte) :
  WriteCompactSize n allow = Ok bs →
  WriteCompactSize n true = Ok bs ∧ (allow = false → n ≤ maxCompactSize).
Proof.
  unfold WriteCompactSize. destruct allow; cbn [negb andb]; [done|].
  destruct (maxCompactSize <? n) eqn:E; [done|].
  apply N.ltb_ge in E. done.
Qed.

Lemma ParseCompactSize_allow (rest rest' : list byte) (n : N) :
  ParseCompactSize rest true = Ok (n, rest') → n ≤ maxCompactSize →
  ParseCompactSize rest false = Ok (n, rest').
Proof.
  unfold ParseCompactSize.
  destruct (parseBody rest) as [[v r]| | |]; cbn [bind negb andb]; try done.
  intros [= -> ->] Hle. apply N.ltb_ge in Hle. by rewrite Hle.
Qed.

(** X1. Whatever [WriteCompactSize] writes for a [uint64], with either
    flag, [ParseCompactSize] reads back with the same flag, leaving exactly
    the bytes that followed. *)
Theorem CompactSize_roundtrip (n : N) (allowOutOfRange : bool)
    (encoding following : list byte) :
  n < 2 ^ 64 →
  WriteCompactSize n allowOutOfRange = Ok encoding →
  ParseCompactSize (encoding ++ following) allowOutOfRange = Ok (n, following).
Proof.
  intros Hn [Hwrite Hrange]%WriteCompactSize_allow.
  pose proof (ParseCompactSize_WriteCompactSize n encoding following Hn Hwrite)
    as Hparse.
  destruct allowOutOfRange; [done|].
  apply ParseCompactSize_allow; [done|]. by apply Hrange.
Qed.

Lemma CompactSize_roundtrip_witness :
  ParseCompactSize ([xfe; x00; x00; x00; x02] ++ [x07]) false = Ok (0x2000000, [x07]).
Proof.
  apply (CompactSize_roundtrip 0x2000000 false); by vm_compute.
Defined.

(** X2. The encodings are prefix-free: the encoding of one [uint64] never
    begins with the encoding of a different one, so a reader always knows
    where an encoded value ends. *)
Theorem WriteCompactSize_prefix_free (n m : N) (allow allow' : bool)
    (bn bm : list byte) :
  n < 2 ^ 64 → m < 2 ^ 64 →
  WriteCompactSize n allow = Ok bn → WriteCompactSize m allow' = Ok bm →
  n ≠ m →
  ¬ bn `prefix_of` bm.
Proof.
  intros Hn Hm [Hwn _]%WriteCompactSize_allow [Hwm _]%WriteCompactSize_allow
    Hne [following Heq].
  pose proof (ParseCompactSize_WriteCompactSize n bn following Hn Hwn) as Hpn.
  pose proof (ParseCompactSize_WriteCompactSize m bm [] Hm Hwm) as Hpm.
  rewrite app_nil_r, Heq, Hpn in Hpm. by injection Hpm as -> ->.
Qed.

Lemma WriteCompactSize_prefix_free_witness :
  ¬ [xfd; xfd; x00] `prefix_of` [xfd; xfd; x01].
Proof.
  apply (WriteCompactSize_prefix_free 253 509 true false); by vm_compute.
Defined.

Lemma getUintLE_bound (w : nat) (b : list byte) : getUintLE w b < 256 ^ N.of_nat w.
Proof.
  revert b. induction w as [|w IH]; intros b; [done|].
  rewrite pow256_S. cbn [getUintLE]. destruct b as [|x b].
  { pose proof (IH []). lia. }
  pose proof (Byte.to_N_bounded x). pose proof (IH b).
  rewrite lor_shiftl_8 by lia. lia.
Qed.

Lemma to_N_not_marker (b : byte) :
  b ≠ xfd → b ≠ xfe → b ≠ xff → Byte.to_N b < 253.
Proof. by destruct b. Qed.

Lemma ParseCompactSize_bound (rest rest' : list byte) (n : N) (allow : bool) :
  ParseCompactSize rest allow = Ok (n, rest') → n < 2 ^ 64.
Proof.
  unfold ParseCompactSize.
  destruct (parseBody rest) as [[v r]| | |] eqn:Hbody; cbn [bind]; try done.
  destruct (negb allow && _); [done|]. intros [= <- <-].
  unfold parseBody in Hbody. destruct rest as [|b tl]; [done|].
  unfold binaryReadUint16, binaryReadUint32, binaryReadUint64 in Hbody.
  repeat case_decide; try done; injection Hbody as <- <-.
  - pose proof (getUintLE_bound 2 tl) as Hb. change (256 ^ N.of_nat 2) with (2 ^ 16) in Hb.
    eapply N.lt_trans; [apply Hb|done].
  - pose proof (getUintLE_bound 4 tl) as Hb. change (256 ^ N.of_nat 4) with (2 ^ 32) in Hb.
    eapply N.lt_trans; [apply Hb|done].
  - apply (getUintLE_bound 8).
  - pose proof (Byte.to_N_bounded b). eapply N.le_lt_trans; [eassumption|done].
Qed.

Lemma ParseCompactSize_marker (w : nat) (m : byte) (v : N) (following : list byte)
    (allow : bool) :
  (m = xfd ∧ w = 2%nat) ∨ (m = xfe ∧ w = 4%nat) ∨ (m = xff ∧ w = 8%nat) →
  v < 256 ^ N.of_nat w →
  allow = true ∨ v ≤ maxCompactSize →
  ParseCompactSize (m :: putUintLE w v ++ following) allow = Ok (v, following).
Proof.
  intros Hm Hv Hrange. unfold ParseCompactSize.
  rewrite (parseBody_marker w) by done. cbn [bind].
  rewrite N.mod_small by done.
  destruct Hrange as [->|Hle]; [done|].
  apply N.ltb_ge in Hle. rewrite Hle. by rewrite andb_false_r.
Qed.

(** The range check of [ParseCompactSize] comes after its [switch]. *)
Lemma ParseCompactSize_parseBody (rest rest' : list byte) (n : N) (allow : bool) :
  ParseCompactSize rest allow = Ok (n, rest') →
  parseBody rest = Ok (n, rest') ∧ (allow = false → n ≤ 33554432).
Proof.
  unfold ParseCompactSize.
  destruct (parseBody rest) as [[v r]| | |]; cbn [bind]; try done.
  destruct allow; cbn [negb andb].
  - by intros [= -> ->].
  - change maxCompactSize with 33554432.
    destruct (33554432 <? v) eqn:E; [done|].
    apply N.ltb_ge in E. by intros [= -> ->].
Qed.

(** What the [switch] of [ParseCompactSize] has read. *)
Lemma parseBody_prefix (rest rest' : list byte) (n : N) :
  parseBody rest = Ok (n, rest') →
  ∃ consumed, rest = consumed ++ rest'
    ∧ ((length consumed = 1%nat ∧ n < 253 ∧ consumed = [byte_of n])
       ∨ (length consumed = 3%nat ∧ head consumed = Some xfd ∧ n < 2 ^ 16)
       ∨ (length consumed = 5%nat ∧ head consumed = Some xfe ∧ n < 2 ^ 32)
       ∨ (length consumed = 9%nat ∧ head consumed = Some xff ∧ n < 2 ^ 64)).
Proof.
  unfold parseBody. destruct rest as [|b tl]; [done|].
  unfold binaryReadUint16, binaryReadUint32, binaryReadUint64.
  repeat case_decide; try done; intros [= <- <-].
  - exists (take 3 (b :: tl)). split; [symmetry; apply (take_drop 3 (b :: tl))|].
    right; left. subst b. rewrite length_take. cbn [length] in *.
    split; [lia|]. split; [done|]. apply (getUintLE_bound 2).
  - exists (take 5 (b :: tl)). split; [symmetry; apply (take_drop 5 (b :: tl))|].
    do 2 right; left. subst b. rewrite length_take. cbn [length] in *.
    split; [lia|]. split; [done|]. apply (getUintLE_bound 4).
  - exists (take 9 (b :: tl)). split; [symmetry; apply (take_drop 9 (b :: tl))|].
    do 3 right. subst b. rewrite length_take. cbn [length] in *.
    split; [lia|]. split; [done|]. apply (getUintLE_bound 8).
  - exists [b]. split; [done|]. left.
    split; [done|]. split; [by apply to_N_not_marker|].
    f_equal. unfold byte_of. pose proof (Byte.to_N_bounded b).
    rewrite N.mod_small by lia. by rewrite Byte.of_to_N.
Qed.

(** X3. A successful [ParseCompactSize] consumes a prefix of its input and
    returns the rest: one byte for a value below 253, three bytes after
    [0xFD] (value below 2^16), five after [0xFE] (below 2^32), nine after
    [0xFF] (below 2^64); within the range the value is at most
    33,554,432. *)
Theorem ParseCompactSize_consumes (rest rest' : list byte) (n : N)
    (allowOutOfRange : bool) :
  ParseCompactSize rest allowOutOfRange = Ok (n, rest') →
  ∃ consumed, rest = consumed ++ rest'
    ∧ (allowOutOfRange = false → n ≤ 33554432)
    ∧ ((length consumed = 1%nat ∧ n < 253 ∧ consumed = [byte_of n])
       ∨ (length consumed = 3%nat ∧ head consumed = Some xfd ∧ n < 2 ^ 16)
       ∨ (length consumed = 5%nat ∧ head consumed = Some xfe ∧ n < 2 ^ 32)
       ∨ (length consumed = 9%nat ∧ head consumed = Some xff ∧ n < 2 ^ 64)).
Proof.
  intros [Hbody Hrange]%ParseCompactSize_parseBody.
  destruct (parseBody_prefix rest rest' n Hbody) as (consumed & Hrest & Hshape).
  exists consumed. split; [exact Hrest|]. split; [exact Hrange|]. exact Hshape.
Qed.

Lemma ParseCompactSize_consumes_witness :
  ∃ consumed, [xfd; x2c; x01; xaa] = consumed ++ [xaa] ∧ length consumed = 3%nat.
Proof.
  destruct (ParseCompactSize_consumes [xfd; x2c; x01; xaa] [xaa] 300 false)
    as (consumed & Heq & _ & Hcases); [by vm_compute|].
  exists consumed. split; [done|].
  destruct Hcases as [(_ & Hn & _)|[(Hlen & _)|[(_ & Hhd & _)|(_ & Hhd & _)]]];
    [by vm_compute in Hn|done|..];
    apply (f_equal head) in Heq; destruct consumed; simplify_eq/=.
Defined.

(** X4. [ParseCompactSize] fails with "invalid compact size encoding"
    exactly on an empty input and on an input that ends before the two,
    four or eight bytes its first byte announces. *)
Theorem ParseCompactSize_truncated (rest : list byte) (allowOutOfRange : bool) :
  ParseCompactSize rest allowOutOfRange = Err ErrInvalidCompactSize
  ↔ rest = []
    ∨ ∃ b tl, rest = b :: tl
        ∧ ((b = xfd ∧ (length tl < 2)%nat) ∨ (b = xfe ∧ (length tl < 4)%nat)
           ∨ (b = xff ∧ (length tl < 8)%nat)).
Proof.
  unfold ParseCompactSize, parseBody. destruct rest as [|b tl].
  { split; [by left|done]. }
  cbn [length].
  split.
  - intros Herr. right. exists b, tl. split; [done|].
    repeat case_decide; cbn [bind] in Herr; subst;
      try (destruct (negb _ && _); done).
    + left. split; [done|lia].
    + right; left. split; [done|lia].
    + do 2 right. split; [done|lia].
  - intros [?|(b' & tl' & [= <- <-] & Hcase)]; [done|].
    destruct Hcase as [[-> ?]|[[-> ?]|[-> ?]]];
      repeat case_decide; try done; lia.
Qed.

(** X5. The parser does not ask for the shortest form: a value is read
    from the three-, five- and nine-byte forms whenever it fits their two,
    four or eight bytes, also when a shorter form exists. *)
Theorem ParseCompactSize_accepts_longer_forms (v : N) (following : list byte)
    (allowOutOfRange : bool) :
  allowOutOfRange = true ∨ v ≤ maxCompactSize →
  (v < 2 ^ 16 →
   ParseCompactSize (xfd :: putUintLE 2 v ++ following) allowOutOfRange
   = Ok (v, following))
  ∧ (v < 2 ^ 32 →
     ParseCompactSize (xfe :: putUintLE 4 v ++ following) allowOutOfRange
     = Ok (v, following))
  ∧ (v < 2 ^ 64 →
     ParseCompactSize (xff :: putUintLE 8 v ++ following) allowOutOfRange
     = Ok (v, following)).
Proof.
  intros Hrange. split; [|split]; intros Hv.
  - apply (ParseCompactSize_marker 2); [tauto|done|done].
  - apply (ParseCompactSize_marker 4); [tauto|done|done].
  - apply (ParseCompactSize_marker 8); [tauto|done|done].
Qed.

Lemma ParseCompactSize_accepts_longer_forms_witness :
  ParseCompactSize [xfd; x01; x00] false = Ok (1, [])
  ∧ ParseCompactSize [x01] false = Ok (1, []).
Proof.
  split; [|done].
  destruct (ParseCompactSize_accepts_longer_forms 1 [] false) as [H3 _].
  - right. by vm_compute.
  - apply H3. by vm_compute.
Defined.

End compactsize_more.

(** ** Convert_byte_to_hex *)

Section hex.
Import compactsize.

Lemma Convert_byte_to_hex_fmap (addr : list byte) :
  Convert_byte_to_hex addr = (λ b, "0x" +:+ sprintfX b) <$> addr.
Proof.
  unfold Convert_byte_to_hex.
  enough (∀ acc, foldl (λ hexes b, hexes ++ ["0x" +:+ sprintfX b]) acc addr
                 = acc ++ ((λ b, "0x" +:+ sprintfX b) <$> addr)) as H by apply H.
  induction addr as [|b addr IH]; intros acc; cbn [foldl fmap list_fmap].
  - by rewrite app_nil_r.
  - fold (fmap (M := list) (λ b, "0x" +:+ sprintfX b) addr).
    by rewrite IH, <- app_assoc.
Qed.

Lemma parseHex_sprintfX (b : byte) : parseHex ("0x" +:+ sprintfX b) = Some b.
Proof. destruct b; reflexivity. Qed.

Lemma length_sprintfX (b : byte) :
  String.length (sprintfX b) = if Byte.to_N b <? 16 then 1%nat else 2%nat.
Proof. unfold sprintfX. by destruct (Byte.to_N b <? 16). Qed.

(** X6. [Convert_byte_to_hex] returns one string per byte, in order:
    ["0x"] followed by the upper-case hexadecimal digits of the byte, one
    digit for a byte below 16 (no leading zero) and two otherwise. Each
    string determines its byte, so two byte sequences with the same
    output are equal. *)
Theorem Convert_byte_to_hex_readable (addr : list byte) :
  length (Convert_byte_to_hex addr) = length addr
  ∧ (∀ i b, addr !! i = Some b →
       ∃ s, Convert_byte_to_hex addr !! i = Some s
            ∧ parseHex s = Some b
            ∧ String.length s = if Byte.to_N b <? 16 then 3%nat else 4%nat)
  ∧ (∀ addr', Convert_byte_to_hex addr' = Convert_byte_to_hex addr → addr' = addr).
Proof.
  rewrite Convert_byte_to_hex_fmap. split; [apply length_fmap|]. split.
  - intros i b Hi. eexists. split; [by rewrite list_lookup_fmap, Hi|].
    split; [apply parseHex_sprintfX|].
    change (String.length ("0x" +:+ sprintfX b)) with (S (S (String.length (sprintfX b)))).
    rewrite length_sprintfX. by destruct (Byte.to_N b <? 16).
  - intros addr'. rewrite Convert_byte_to_hex_fmap. intros Heq.
    apply (f_equal (fmap parseHex)) in Heq.
    rewrite <- !list_fmap_compose in Heq.
    assert (Hid : ∀ l : list byte,
      (parseHex ∘ (λ b, "0x" +:+ sprintfX b)) <$> l = Some <$> l).
    { intros l. apply list_fmap_ext. intros ? b _. apply parseHex_sprintfX. }
    rewrite !Hid in Heq.
    by apply (inj (fmap Some)) in Heq.
Qed.

End hex.

(** ** The item codec of unified addresses *)

Section codec_more.
Import compactsize unifiedaddress.

(** X7. [tlv] never fails and never returns an empty slice: both calls of
    [WriteCompactSize] are made with the extended range and succeed, so
    the branch that returns a nil slice with a nil error is never taken;
    the result is the typecode, the length and the value, in this
    order. *)
Theorem tlv_never_fails (typecode : N) (value : list byte) :
  ∃ start st,
    WriteCompactSize typecode true = Ok start
    ∧ WriteCompactSize (N.of_nat (length value)) true = Ok st
    ∧ tlv typecode value = Ok (start ++ st ++ value)
    ∧ (1 ≤ length start)%nat ∧ (1 ≤ length st)%nat.
Proof.
  destruct (WriteCompactSize_true typecode) as (start & Hstart & ?).
  destruct (WriteCompactSize_true (N.of_nat (length value))) as (st & Hst & ?).
  exists start, st. unfold tlv. rewrite Hstart. cbn [bind]. by rewrite Hst.
Qed.

(** X8. The two tables of item types agree: an item type has an expected
    length (20 for the transparent items, 43 for Sapling and Orchard)
    exactly when its name is not ["unknown"], and that is exactly when the
    typecode is at most 3. *)
Theorem getItemName_getExpectedLength (itemType : N) :
  (getItemName itemType = "unknown" ↔ getExpectedLength itemType = 0)
  ∧ (getExpectedLength itemType = 0 ↔ 3 < itemType)
  ∧ (getItemName itemType = "transparent" → getExpectedLength itemType = 20)
  ∧ (getItemName itemType = "sapling" ∨ getItemName itemType = "orchard" →
     getExpectedLength itemType = 43).
Proof.
  unfold getItemName, getExpectedLength, P2PKHItem, P2SHItem, SaplingItem, OrchardItem.
  repeat case_decide; (split; [split|split; [split|split; [|intros []]]]);
    intros; try done; lia.
Qed.

(** The converse of [checkItems_ascending], when no item carries the
    typecode [0xffffffff]. *)
Lemma checkItems_sorted (items : list (N * list byte))
    (receivers m : gmap N (list byte)) (prevType : N) :
  NoPreviousItem ∉ items.*1 →
  checkItems items receivers prevType = Ok m →
  Forall expectedLength items ∧ StronglySorted N.lt items.*1
  ∧ (prevType ≠ NoPreviousItem → Forall (N.lt prevType) items.*1).
Proof.
  revert receivers prevType.
  induction items as [|[t v] items IH]; intros receivers prevType Hsentinel Hcheck.
  { split; [constructor|]. split; constructor. }
  cbn [fmap list_fmap fst] in Hsentinel.
  apply not_elem_of_cons in Hsentinel as [Ht Hsentinel].
  cbn [checkItems] in Hcheck.
  destruct (checkItem (t, v) receivers prevType) as [[receivers' prevType']| | |]
    eqn:Hitem; cbn [bind] in Hcheck; try done.
  assert (expectedLength (t, v) ∧ (prevType ≠ NoPreviousItem → prevType < t)
          ∧ prevType' = t) as (Hlen & Hprev & ->).
  { unfold checkItem in Hitem. repeat case_decide; try done.
    injection Hitem as <- <-. split; [|split; [|done]].
    - unfold expectedLength. cbn [fst snd].
      destruct (decide (getExpectedLength t = 0)); [by left|right].
      destruct (decide (N.of_nat (length v) = getExpectedLength t)); [done|].
      exfalso. apply H. split; [lia|done].
    - intros Hp. destruct (decide (prevType < t)); [done|].
      exfalso. apply H1. split; [done|lia]. }
  destruct (IH receivers' t Hsentinel Hcheck) as (Hlens & Hsorted & Habove).
  specialize (Habove (not_eq_sym Ht)).
  split; [by constructor|]. split.
  - cbn [fmap list_fmap fst]. by constructor.
  - intros Hp. cbn [fmap list_fmap fst]. constructor; [by apply Hprev|].
    eapply Forall_impl; [exact Habove|]. intros t' Ht'. cbn in Ht'.
    specialize (Hprev Hp). lia.
Qed.

Lemma DecodeUnified_decoded_flat_map (items : list (N * list byte)) (hrp : string) :
  Forall typedItem items → Forall expectedLength items →
  StronglySorted N.lt items.*1 →
  (length (list_byte_of_string hrp) ≤ 16)%nat →
  DecodeUnified_decoded (flat_map itemBytes items ++ padding hrp) hrp
  = Ok (addressOf (list_to_map items)).
Proof.
  intros Htyped Hlens Hsorted Hhrp.
  rewrite DecodeUnified_decoded_app by done.
  rewrite decodeItems_flat_map by done.
  destruct (checkItems_ascending items ∅ NoPreviousItem) as [m Hm];
    [done|by intros; apply lookup_empty|by left|done|].
  rewrite Hm. cbn [bind].
  apply checkItems_Ok in Hm as (-> & _ & _).
  by rewrite (right_id ∅ (∪)).
Qed.

(** X9. What the decoder accepts after the jumble is undone: a buffer made
    of items followed by the padding of the prefix is decoded, when no
    item has the typecode [0xffffffff], exactly if the typecodes are
    strictly ascending and every known item has its expected length; the
    result holds each item under its typecode. *)
Theorem DecodeUnified_decoded_accepts (items : list (N * list byte)) (hrp : string) :
  Forall typedItem items →
  NoPreviousItem ∉ items.*1 →
  (length (list_byte_of_string hrp) ≤ 16)%nat →
  ((∃ a, DecodeUnified_decoded (flat_map itemBytes items ++ padding hrp) hrp = Ok a)
   ↔ StronglySorted N.lt items.*1 ∧ Forall expectedLength items)
  ∧ (∀ a, DecodeUnified_decoded (flat_map itemBytes items ++ padding hrp) hrp = Ok a →
       a = addressOf (list_to_map items)).
Proof.
  intros Htyped Hsentinel Hhrp.
  assert (Hinv : ∀ a,
    DecodeUnified_decoded (flat_map itemBytes items ++ padding hrp) hrp = Ok a →
    StronglySorted N.lt items.*1 ∧ Forall expectedLength items).
  { intros a. rewrite DecodeUnified_decoded_app by done.
    rewrite decodeItems_flat_map by done.
    destruct (checkItems items ∅ NoPreviousItem) as [m| | |] eqn:Hm;
      cbn [bind]; try done.
    intros _. by apply checkItems_sorted in Hm as (? & ? & _). }
  split.
  - split; [intros [a Ha]; by apply (Hinv a)|].
    intros [Hsorted Hlens]. eexists. by apply DecodeUnified_decoded_flat_map.
  - intros a Ha. destruct (Hinv a Ha) as [Hsorted Hlens].
    rewrite DecodeUnified_decoded_flat_map in Ha by done. by injection Ha as <-.
Qed.

Lemma DecodeUnified_decoded_accepts_witness :
  DecodeUnified_decoded
    (flat_map itemBytes [(SaplingItem, examples.sapling43); (5, [xbb])] ++ padding "u") "u"
  = Ok (addressOf (list_to_map [(SaplingItem, examples.sapling43); (5, [xbb])])).
Proof.
  destruct (DecodeUnified_decoded_accepts [(SaplingItem, examples.sapling43); (5, [xbb])] "u")
    as [[_ Haccepts] Hresult].
  - repeat constructor; by vm_compute.
  - refine (bool_decide_unpack _ _). by vm_compute.
  - cbn. lia.
  - destruct Haccepts as [a Ha].
    + split; repeat constructor; by vm_compute.
    + rewrite Ha. f_equal. by apply Hresult.
Defined.

End codec_more.

(** ** The decoder of unified addresses *)

Section decoder_more.
Import compactsize unifiedaddress examples.

Lemma length_copyInto (n : nat) (data : list byte) : length (copyInto n data) = n.
Proof. unfold copyInto. rewrite length_app, length_take, length_replicate. lia. Qed.

Lemma decodeItem_stored (rest rest' : list byte)
    (receivers receivers' : gmap N (list byte)) (prevType prevType' : N)
    (bound : nat) :
  (length rest ≤ bound)%nat →
  map_Forall (storedItem bound) receivers →
  decodeItem rest receivers prevType = Ok (rest', receivers', prevType') →
  map_Forall (storedItem bound) receivers'.
Proof.
  intros Hbound Hinv. unfold decodeItem.
  destruct (ParseCompactSize rest true) as [[itemType r1]| | |] eqn:H1; try done.
  destruct (ParseCompactSize r1 true) as [[itemLen r2]| | |] eqn:H2; try done.
  destruct (decide (0 < getExpectedLength itemType
                    ∧ itemLen ≠ getExpectedLength itemType)) as [|Hlen]; [done|].
  destruct (decide (Z.of_nat (length r2) < int_of_uint64 itemLen)%Z); [done|].
  destruct (decide (N.of_nat (length r2) < itemLen)) as [|Hfits]; [done|].
  repeat case_decide; try done. intros [= <- <- <-].
  apply map_Forall_insert_2; [|done].
  pose proof (ParseCompactSize_bound _ _ _ _ H1).
  pose proof (ParseCompactSize_shorter _ _ _ _ H1).
  pose proof (ParseCompactSize_shorter _ _ _ _ H2).
  split; [done|]. rewrite length_take. split; [lia|].
  destruct (decide (getExpectedLength itemType = 0)); [by left|right].
  destruct (decide (itemLen = getExpectedLength itemType)) as [<-|];
    [lia|exfalso; apply Hlen; split; [lia|done]].
Qed.

Lemma decodeItems_stored (fuel : nat) (rest : list byte)
    (receivers m : gmap N (list byte)) (prevType : N) (bound : nat) :
  (length rest ≤ bound)%nat →
  map_Forall (storedItem bound) receivers →
  decodeItems fuel rest receivers prevType = Ok m →
  map_Forall (storedItem bound) m.
Proof.
  revert rest receivers prevType.
  induction fuel as [|fuel IH]; intros rest receivers prevType Hbound Hinv;
    destruct rest as [|b rest]; cbn [decodeItems]; try done.
  - by intros [= <-].
  - by intros [= <-].
  - destruct (decodeItem (b :: rest) receivers prevType)
      as [[[rest' receivers'] prevType']| | |] eqn:Hitem; cbn [bind]; try done.
    apply IH.
    + apply decodeItem_shorter in Hitem. lia.
    + by eapply decodeItem_stored.
Qed.

(** X10. Whatever the decoder returns is a well-formed address: the
    transparent receivers have 20 bytes, Sapling and Orchard 43, and the
    unknown items have typecodes from 4 up to 2^64 - 1, none of the four
    known ones, with payloads taken from the buffer. *)
Theorem DecodeUnified_decoded_wf (decoded : list byte) (hrp : string)
    (a : UnifiedAddress) :
  N.of_nat (length decoded) < 2 ^ 63 →
  DecodeUnified_decoded decoded hrp = Ok a →
  wf_UnifiedAddress a
  ∧ map_Forall (λ k v, 3 < k ∧ (length v ≤ length decoded)%nat) (Unknown a).
Proof.
  intros Hsize.
  destruct (decide (length decoded < 16)%nat) as [Hshort|Hlong].
  { unfold DecodeUnified_decoded. by rewrite decide_True. }
  rewrite DecodeUnified_decoded_split by lia.
  case_decide; [done|]. cbv zeta.
  match goal with
  | |- context [decodeItems ?fuel ?rest ?r ?p] =>
      destruct (decodeItems fuel rest r p) as [m| | |] eqn:Hm
  end; cbn [bind]; try done.
  intros [= <-].
  apply (decodeItems_stored _ _ _ _ _ (length decoded)) in Hm;
    [|rewrite length_take; lia|apply map_Forall_empty].
  assert (Hfield : ∀ (n : nat) k p, copyInto n <$> m !! k = Some p → length p = n).
  { intros n k p Hp. destruct (m !! k); [|done].
    injection Hp as <-. apply length_copyInto. }
  unfold wf_UnifiedAddress, addressOf. cbn.
  split; [split; [|split; [|split; [|split]]]|]; try by apply Hfield.
  - intros k v [Hkv _]%map_lookup_filter_Some.
    apply Hm in Hkv as (Hk & Hv & _). cbn. split; [done|lia].
  - intros k v [Hkv Hunknown]%map_lookup_filter_Some.
    apply Hm in Hkv as (_ & Hv & _). apply unknownType_iff in Hunknown.
    cbn. split; [lia|done].
Qed.

Lemma DecodeUnified_decoded_wf_witness :
  wf_UnifiedAddress sentinelAddress
  ∧ map_Forall (λ k v, 3 < k ∧ (length v ≤ length sentinelBuffer)%nat)
      (Unknown sentinelAddress).
Proof.
  apply (DecodeUnified_decoded_wf sentinelBuffer "u"); by vm_compute.
Defined.

(** X11. The decoder inherits the leniency of the parser: an item whose
    typecode and length are written in the three-byte form although they
    are below 253 is read exactly like the item in its shortest form, so
    different buffers decode to the same address. *)
Theorem decodeItem_accepts_longer_forms (itemType : N) (value following : list byte)
    (receivers : gmap N (list byte)) (prevType : N) :
  itemType < 2 ^ 16 → N.of_nat (length value) < 2 ^ 16 →
  decodeItem (xfd :: putUintLE 2 itemType
              ++ xfd :: putUintLE 2 (N.of_nat (length value)) ++ value ++ following)
    receivers prevType
  = decodeItem (itemBytes (itemType, value) ++ following) receivers prevType.
Proof.
  intros Ht Hv. unfold decodeItem, itemBytes. cbn [fst snd].
  rewrite (ParseCompactSize_marker 2) by (done || tauto).
  rewrite (ParseCompactSize_marker 2) by (done || tauto).
  rewrite <- !app_assoc.
  rewrite ParseCompactSize_compactSizeBytes
    by (eapply N.lt_trans; [exact Ht|done]).
  rewrite ParseCompactSize_compactSizeBytes
    by (eapply N.lt_trans; [exact Hv|done]).
  done.
Qed.

Lemma decodeItem_accepts_longer_forms_witness :
  decodeItem ([xfd; x02; x00; xfd; x2b; x00] ++ sapling43 ++ [x05; x01; xbb])
    ∅ NoPreviousItem
  = Ok ([x05; x01; xbb], {[ SaplingItem := sapling43 ]}, SaplingItem).
Proof.
  etrans;
    [apply (decodeItem_accepts_longer_forms SaplingItem sapling43 [x05; x01; xbb]);
     by vm_compute|].
  by vm_compute.
Defined.

Lemma decodeItems_first (fuel : nat) (rest : list byte)
    (receivers : gmap N (list byte)) (prevType : N) :
  rest ≠ [] → (length rest ≤ fuel)%nat →
  decodeItems fuel rest receivers prevType =
  (let? (rest', receivers', prevType') := decodeItem rest receivers prevType in
   decodeItems (fuel - 1) rest' receivers' prevType').
Proof.
  intros Hrest Hfuel. destruct rest as [|b rest]; [done|].
  destruct fuel as [|fuel]; [cbn in Hfuel; lia|].
  cbn [decodeItems]. by rewrite Nat.sub_1_r.
Qed.

Lemma decodeItem_short (itemType itemLen : N) (following : list byte)
    (receivers : gmap N (list byte)) (prevType : N) :
  itemType < 2 ^ 64 → itemLen < 2 ^ 64 →
  getExpectedLength itemType = 0 ∨ itemLen = getExpectedLength itemType →
  N.of_nat (length following) < itemLen →
  decodeItem (compactSizeBytes itemType ++ compactSizeBytes itemLen ++ following)
    receivers prevType
  = if itemLen <? 2 ^ 63 then Err (ErrInsufficientData itemType) else Panicked.
Proof.
  intros Ht Hl Hexpected Hshort. unfold decodeItem.
  rewrite !ParseCompactSize_compactSizeBytes by done.
  rewrite decide_False by (intros [? ?]; lia).
  unfold int_of_uint64.
  destruct (itemLen <? 2 ^ 63) eqn:Hint.
  - rewrite decide_True by lia. done.
  - apply N.ltb_ge in Hint. rewrite N.mod_small by done.
    rewrite decide_False.
    + by rewrite decide_True.
    + assert (Z.of_N itemLen < 2 ^ 64)%Z.
      { change (2 ^ 64)%Z with (Z.of_N (2 ^ 64)). lia. }
      lia.
Qed.

(** The first pass of the loop on a buffer that is not only padding. *)
Lemma DecodeUnified_decoded_first (body : list byte) (hrp : string) :
  (length (list_byte_of_string hrp) ≤ 16)%nat → body ≠ [] →
  DecodeUnified_decoded (body ++ padding hrp) hrp =
  (let? receivers :=
     (let? (rest', receivers', prevType') := decodeItem body ∅ NoPreviousItem in
      decodeItems (length body - 1) rest' receivers' prevType') in
   Ok (addressOf receivers)).
Proof.
  intros Hhrp Hbody. rewrite DecodeUnified_decoded_app by done.
  by rewrite decodeItems_first.
Qed.

(** X12. An item that announces more payload than the buffer holds: when
    the announced length is below 2^63 the decoder reports insufficient
    data; from 2^63 on, [int(itemLen)] is negative, the length check
    passes and slicing [remaining[:itemLen]] panics. *)
Theorem DecodeUnified_decoded_short_item (itemType itemLen : N)
    (following : list byte) (hrp : string) :
  itemType < 2 ^ 64 → itemLen < 2 ^ 64 →
  getExpectedLength itemType = 0 ∨ itemLen = getExpectedLength itemType →
  N.of_nat (length following) < itemLen →
  (length (list_byte_of_string hrp) ≤ 16)%nat →
  DecodeUnified_decoded
    (compactSizeBytes itemType ++ compactSizeBytes itemLen ++ following
     ++ padding hrp) hrp
  = if itemLen <? 2 ^ 63 then Err (ErrInsufficientData itemType) else Panicked.
Proof.
  intros Ht Hl Hexpected Hshort Hhrp.
  rewrite (app_assoc (compactSizeBytes itemLen)), app_assoc.
  rewrite DecodeUnified_decoded_first; [|done|intros Hnil].
  - rewrite decodeItem_short by done. by destruct (itemLen <? 2 ^ 63).
  - pose proof (length_compactSizeBytes itemType).
    apply (f_equal length) in Hnil. rewrite length_app in Hnil. cbn in Hnil. lia.
Qed.

Lemma DecodeUnified_decoded_short_item_witness :
  DecodeUnified_decoded ([x04; x05; xaa; xbb] ++ padding "u") "u"
  = Err (ErrInsufficientData 4)
  ∧ DecodeUnified_decoded (hugeItemBuffer "u") "u" = Panicked.
Proof.
  split.
  - apply (DecodeUnified_decoded_short_item 4 5 [xaa; xbb] "u");
      [by vm_compute|by vm_compute|by left|by vm_compute|cbn; lia].
  - apply (DecodeUnified_decoded_short_item 4 (2 ^ 63) (replicate 32 x00) "u");
      [by vm_compute|by vm_compute|by left|by vm_compute|cbn; lia].
Defined.

Section with_collaborators.
Context {C : Collaborators}.

(** X13. The decoder does not enforce what the encoder does: a buffer
    with both a P2PKH and a P2SH item, in ascending order, is decoded to
    an address with both receivers, and [EncodeUnified] refuses to encode
    that address again. *)
Theorem DecodeUnified_decoded_both_transparent (items : list (N * list byte))
    (hrp : string) :
  Forall typedItem items → Forall expectedLength items →
  StronglySorted N.lt items.*1 →
  (length (list_byte_of_string hrp) ≤ 16)%nat →
  P2PKHItem ∈ items.*1 → P2SHItem ∈ items.*1 →
  ∃ a, DecodeUnified_decoded (flat_map itemBytes items ++ padding hrp) hrp = Ok a
       ∧ is_Some (P2pkh a) ∧ is_Some (P2sh a)
       ∧ ∀ visit hrp', EncodeUnified visit a hrp' = Err ErrBothTransparent.
Proof.
  intros Htyped Hlens Hsorted Hhrp Hpkh Hsh.
  exists (addressOf (list_to_map items)).
  split; [by apply DecodeUnified_decoded_flat_map|].
  assert (Hin : ∀ (n : nat) k, k ∈ items.*1 →
    is_Some (copyInto n <$> (list_to_map items : gmap N (list byte)) !! k)).
  { intros n k Hk.
    destruct ((list_to_map items : gmap N (list byte)) !! k) eqn:Hlookup; [by eexists|].
    by apply not_elem_of_list_to_map in Hlookup. }
  assert (Hboth : is_Some (P2pkh (addressOf (list_to_map items)))
                  ∧ is_Some (P2sh (addressOf (list_to_map items)))).
  { split; by apply Hin. }
  split; [apply Hboth|]. split; [apply Hboth|].
  intros visit hrp'. unfold EncodeUnified.
  by rewrite EncodeUnified_rBytes_both.
Qed.

(** X14. With an expected prefix of more than 16 bytes [DecodeUnified]
    never returns an address, whatever the string: the padding of such a
    prefix is longer than the 16 bytes it is compared with. *)
Theorem DecodeUnified_long_hrp (encoded hrp : string) (a : UnifiedAddress) :
  (16 < length (list_byte_of_string hrp))%nat →
  DecodeUnified encoded hrp ≠ Ok a.
Proof.
  intros Hhrp. unfold DecodeUnified.
  destruct (DecodeNoLimitWithVersion encoded) as [[[h d] v] e].
  repeat case_decide; try done.
  destruct (ConvertBits d 5 8 false) as [bits| | |]; cbn [bind]; try done.
  destruct (F4JumbleInv bits) as [decoded| | |]; cbn [bind]; try done.
  destruct (decide (length decoded < 16)%nat).
  - unfold DecodeUnified_decoded. by rewrite decide_True.
  - by rewrite DecodeUnified_decoded_long_prefix by lia.
Qed.

End with_collaborators.

Lemma DecodeUnified_decoded_both_transparent_witness :
  ∃ a, DecodeUnified_decoded
         (flat_map itemBytes [(P2PKHItem, pkh20); (P2SHItem, pkh20)] ++ padding "u") "u"
       = Ok a
       ∧ EncodeUnified (C := simple.collaborators) [] a "u" = Err ErrBothTransparent.
Proof.
  destruct (DecodeUnified_decoded_both_transparent (C := simple.collaborators)
              [(P2PKHItem, pkh20); (P2SHItem, pkh20)] "u")
    as (a & Ha & _ & _ & Hencode).
  - repeat constructor; by vm_compute.
  - repeat constructor; by vm_compute.
  - repeat constructor; by vm_compute.
  - cbn; lia.
  - by left.
  - right; by left.
  - exists a. split; [exact Ha|apply Hencode].
Defined.

Lemma DecodeUnified_long_hrp_witness :
  DecodeUnified (C := simple.collaborators) texString longHrp ≠ Ok saplingOnly.
Proof. apply DecodeUnified_long_hrp. cbn. lia. Defined.

End decoder_more.

Section decoder_strings.
Import compactsize unifiedaddress examples.
Context {C : Collaborators} {HC : CollaboratorContracts C}.

(** X15. A string written by [EncodeUnified] for one prefix is refused by
    [DecodeUnified] under any other expected prefix, with "invalid HRP or
    encoding". *)
Theorem DecodeUnified_other_hrp (visit : list (N * list byte))
    (a : UnifiedAddress) (hrp hrp' s : string) :
  bech32_hrp hrp = true →
  EncodeUnified visit a hrp = Ok s →
  hrp' ≠ hrp →
  DecodeUnified s hrp' = Err ErrInvalidHrpOrEncoding.
Proof.
  intros Hhrp Hencode Hother. unfold EncodeUnified in Hencode.
  destruct (EncodeUnified_rBytes visit a hrp) as [rBytes| | |];
    cbn [bind] in Hencode; try done.
  destruct (F4Jumble rBytes) as [j| | |]; cbn [bind] in Hencode; try done.
  destruct (ConvertBits j 8 5 true) as [d| | |] eqn:Hd; cbn [bind] in Hencode;
    try done.
  destruct (EncodeM_decodes hrp j d Hhrp Hd) as (s' & Hs' & Hdecode).
  rewrite Hs' in Hencode. cbn [bind] in Hencode. injection Hencode as ->.
  unfold DecodeUnified. rewrite Hdecode.
  rewrite decide_False by (intros ?; done).
  rewrite decide_True; [done|]. left. by intros ->.
Qed.

(** X16. For every accepted prefix of at most 16 bytes there is a bech32m
    string on which [DecodeUnified] panics: the encoding of a buffer whose
    item announces 2^63 bytes of payload. *)
Theorem DecodeUnified_panics (hrp : string) :
  bech32_hrp hrp = true →
  (length (list_byte_of_string hrp) ≤ 16)%nat →
  ∃ j d s, F4Jumble (hugeItemBuffer hrp) = Ok j ∧ ConvertBits j 8 5 true = Ok d
           ∧ EncodeM hrp d = Ok s ∧ DecodeUnified s hrp = Panicked.
Proof.
  intros Hhrp Hlen.
  destruct (DecodeUnified_of_encoded (hugeItemBuffer hrp) hrp Hhrp)
    as (j & d & s & Hj & Hd & Hs & Hdecode).
  { unfold hugeItemBuffer. rewrite !length_app, length_padding. cbn [length].
    rewrite length_replicate. lia. }
  exists j, d, s. split; [done|]. split; [done|]. split; [done|].
  rewrite Hdecode.
  change (hugeItemBuffer hrp)
    with ((compactSizeBytes 4 ++ compactSizeBytes (2 ^ 63) ++ replicate 32 x00)
          ++ padding hrp).
  rewrite DecodeUnified_decoded_first by done.
  by rewrite decodeItem_short by (done || (by left) || (by vm_compute)).
Qed.

End decoder_strings.

Lemma DecodeUnified_other_hrp_witness :
  ∃ s, unifiedaddress.EncodeUnified (C := simple.collaborators) []
         examples.saplingOnly "u" = Ok s
       ∧ unifiedaddress.DecodeUnified (C := simple.collaborators) s "utest"
         = Err ErrInvalidHrpOrEncoding.
Proof.
  eexists. split; [by vm_compute|].
  apply (DecodeUnified_other_hrp (C := simple.collaborators) (HC := simple_contracts)
           [] examples.saplingOnly "u" "utest"); by vm_compute.
Defined.

Lemma DecodeUnified_panics_witness :
  ∃ s, unifiedaddress.DecodeUnified (C := simple.collaborators) s "u" = Panicked.
Proof.
  destruct (DecodeUnified_panics (C := simple.collaborators) (HC := simple_contracts) "u")
    as (_ & _ & s & _ & _ & _ & Hs); [by vm_compute|cbn; lia|].
  by exists s.
Defined.

(** ** The errors of the encoder *)

Section encoder_errors.
Import compactsize unifiedaddress examples.
Context {C : Collaborators}.

(** X17. The only error of [EncodeUnified]'s own is the refusal of an
    address with both transparent receivers, returned before anything is
    encoded. For every other address the buffer is built without error
    (the errors of [tlv] never surface): the items and the padding, 16
    bytes or the whole prefix if that is longer; any error then comes from
    [F4Jumble], [ConvertBits] or [EncodeM], in this order. *)
Theorem EncodeUnified_errors (visit : list (N * list byte))
    (addr : UnifiedAddress) (hrp : string) (e : error) :
  EncodeUnified visit addr hrp = Err e →
  (e = ErrBothTransparent ∧ is_Some (P2pkh addr) ∧ is_Some (P2sh addr))
  ∨ (¬ (is_Some (P2pkh addr) ∧ is_Some (P2sh addr))
     ∧ ∃ rBytes, EncodeUnified_rBytes visit addr hrp = Ok rBytes
         ∧ (length (padding hrp) ≤ length rBytes)%nat
         ∧ (F4Jumble rBytes = Err e
            ∨ ∃ jumbledBytes, F4Jumble rBytes = Ok jumbledBytes
                ∧ (ConvertBits jumbledBytes 8 5 true = Err e
                   ∨ ∃ converted, ConvertBits jumbledBytes 8 5 true = Ok converted
                       ∧ EncodeM hrp converted = Err e))).
Proof.
  unfold EncodeUnified.
  destruct (decide (is_Some (P2pkh addr) ∧ is_Some (P2sh addr))) as [Hboth|Hone].
  - rewrite EncodeUnified_rBytes_both by done. cbn [bind].
    intros [= <-]. left. by destruct Hboth.
  - rewrite EncodeUnified_rBytes_ok by done. cbn [bind]. intros Herr.
    right. split; [done|]. eexists. split; [done|].
    split; [rewrite length_app; lia|].
    destruct (F4Jumble _) as [j| | |]; cbn [bind] in Herr; try done;
      [|left; by injection Herr as ->].
    right. exists j. split; [done|].
    destruct (ConvertBits j 8 5 true) as [d| | |]; cbn [bind] in Herr; try done;
      [|left; by injection Herr as ->].
    right. exists d. split; [done|].
    by destruct (EncodeM hrp d).
Qed.

End encoder_errors.

Lemma EncodeUnified_errors_witness :
  ∃ rBytes,
    unifiedaddress.EncodeUnified_rBytes [] unifiedaddress.emptyAddress "u" = Ok rBytes
    ∧ (16 ≤ length rBytes)%nat.
Proof.
  destruct (EncodeUnified_errors (C := simple.collaborators) []
              unifiedaddress.emptyAddress "u"
              (ErrCollaborator "f4jumble: invalid message length"))
    as [(Hboth & _)|(_ & rBytes & Hr & Hlen & _)]; [by vm_compute|done|].
  exists rBytes. split; [exact Hr|exact Hlen].
Defined.

(** ** The decoding loop: progress and frame *)

Section loop_more.
Import compactsize unifiedaddress examples.

(** X18. One pass of the decoding loop reads a header of 2 to 18 bytes (the
    typecode and the length) and the payload that follows, and leaves the
    rest; it adds the payload under a typecode that was not stored
    before, changes no other receiver, and the typecode is above the
    previous one unless the previous one is [0xffffffff]. *)
Theorem decodeItem_frame (rest rest' : list byte)
    (receivers receivers' : gmap N (list byte)) (prevType prevType' : N) :
  decodeItem rest receivers prevType = Ok (rest', receivers', prevType') →
  ∃ header item,
    rest = header ++ item ++ rest'
    ∧ (2 ≤ length header ≤ 18)%nat
    ∧ receivers !! prevType' = None
    ∧ receivers' = <[prevType' := item]> receivers
    ∧ (prevType = NoPreviousItem ∨ prevType < prevType').
Proof.
  unfold decodeItem.
  destruct (ParseCompactSize rest true) as [[itemType r1]| | |] eqn:H1; try done.
  destruct (ParseCompactSize r1 true) as [[itemLen r2]| | |] eqn:H2; try done.
  destruct (decide (0 < getExpectedLength itemType
                    ∧ itemLen ≠ getExpectedLength itemType)); [done|].
  destruct (decide (Z.of_nat (length r2) < int_of_uint64 itemLen)%Z); [done|].
  destruct (decide (N.of_nat (length r2) < itemLen)); [done|].
  destruct (decide (is_Some (receivers !! itemType))) as [|Hfresh]; [done|].
  destruct (decide (prevType ≠ NoPreviousItem ∧ itemType ≤ prevType))
    as [|Horder]; [done|].
  intros [= <- <- <-].
  apply ParseCompactSize_parseBody in H1 as [H1 _].
  apply ParseCompactSize_parseBody in H2 as [H2 _].
  apply parseBody_prefix in H1 as (c1 & -> & Hc1).
  apply parseBody_prefix in H2 as (c2 & -> & Hc2).
  exists (c1 ++ c2), (take (N.to_nat itemLen) r2).
  split; [by rewrite take_drop, app_assoc|].
  split; [rewrite length_app; lia|].
  split; [by apply eq_None_not_Some|]. split; [done|].
  destruct (decide (prevType = NoPreviousItem)); [by left|right].
  destruct (decide (prevType < itemType)); [done|].
  exfalso. apply Horder. split; [done|lia].
Qed.

Lemma decodeItem_frame_witness :
  ∃ header item,
    [x05; x01; xbb; x07] = header ++ item ++ [x07]
    ∧ (2 ≤ length header ≤ 18)%nat
    ∧ (∅ : gmap N (list byte)) !! 5 = None.
Proof.
  destruct (decodeItem_frame [x05; x01; xbb; x07] [x07] ∅ {[ 5 := [xbb] ]}
              NoPreviousItem 5)
    as (header & item & Hrest & Hheader & Hfresh & _); [by vm_compute|].
  by exists header, item.
Defined.

(** X19. The loop ends: with as many passes as the buffer has bytes the
    model never runs out of passes, and any larger number of passes gives
    the same result. *)
Theorem decodeItems_enough_fuel (fuel fuel' : nat) (rest : list byte)
    (receivers : gmap N (list byte)) (prevType : N) :
  (length rest ≤ fuel)%nat → (length rest ≤ fuel')%nat →
  decodeItems fuel rest receivers prevType
  = decodeItems fuel' rest receivers prevType
  ∧ decodeItems fuel rest receivers prevType ≠ OutOfFuel.
Proof.
  intros Hfuel Hfuel'. split; [|by apply decodeItems_fuel].
  revert fuel' rest receivers prevType Hfuel Hfuel'.
  induction fuel as [|fuel IH]; intros fuel' rest receivers prevType Hfuel Hfuel';
    destruct rest as [|b rest]; cbn [length] in *; try lia.
  - by destruct fuel'.
  - by destruct fuel'.
  - destruct fuel' as [|fuel']; [lia|]. cbn [decodeItems].
    destruct (decodeItem (b :: rest) receivers prevType)
      as [[[rest' receivers'] prevType']| | |] eqn:Hitem; cbn [bind]; try done.
    apply decodeItem_shorter in Hitem. cbn [length] in Hitem.
    apply IH; lia.
Qed.

Lemma decodeItems_enough_fuel_witness :
  decodeItems 3 [x05; x01; xbb] ∅ NoPreviousItem
  = decodeItems 100 [x05; x01; xbb] ∅ NoPreviousItem.
Proof.
  apply (decodeItems_enough_fuel 3 100 [x05; x01; xbb] ∅ NoPreviousItem);
    cbn; lia.
Defined.

(** X20. The order in which the last loop of [DecodeUnified] ranges over
    the receivers does not matter: every visiting order of the map fills
    the address in the same way. *)
Theorem bucketAll_order (receivers : gmap N (list byte))
    (visit visit' : list (N * list byte)) :
  range_of receivers visit → range_of receivers visit' →
  bucketAll visit = bucketAll visit'
  ∧ P2pkh (bucketAll visit) = copyInto 20 <$> receivers !! P2PKHItem
  ∧ P2sh (bucketAll visit) = copyInto 20 <$> receivers !! P2SHItem
  ∧ Sapling (bucketAll visit) = copyInto 43 <$> receivers !! SaplingItem
  ∧ Orchard (bucketAll visit) = copyInto 43 <$> receivers !! OrchardItem
  ∧ (∀ k, 3 < k → Unknown (bucketAll visit) !! k = receivers !! k).
Proof.
  intros Hvisit Hvisit'.
  rewrite (bucketAll_range receivers visit), (bucketAll_range receivers visit')
    by done.
  split; [done|]. unfold addressOf. cbn.
  split; [done|]. split; [done|]. split; [done|]. split; [done|].
  intros k Hk.
  destruct (receivers !! k) as [v|] eqn:Hlookup.
  - apply map_lookup_filter_Some. split; [done|]. apply unknownType_iff. lia.
  - apply map_lookup_filter_None. by left.
Qed.

Lemma bucketAll_order_witness :
  bucketAll visitUp = bucketAll visitDown.
Proof.
  destruct (bucketAll_order (Unknown twoUnknown) visitUp visitDown) as [Heq _].
  - unfold range_of. by vm_compute.
  - unfold range_of. vm_compute. apply perm_swap.
  - exact Heq.
Defined.

End loop_more.

(** ** The address dispatcher: which stage answers *)

Section dispatcher_stages.
Import zcashaddress.
Context {C : Collaborators}.

(** The statements of the dispatcher after the base58 stage, for a string
    whose bech32 decoding selects no branch: the unified stage alone. *)
Lemma DecodeAddress_bech32Passes (address : string) (network : Network) :
  is_Some (CheckDecode address).2 →
  bech32Passes address network →
  DecodeAddress address network =
  match unifiedaddress.DecodeUnified address (unifiedHRP network) with
  | Ok unified => Ok (constructors.Unified unified, None)
  | Err unifiedDecodedErr =>
      Ok (zeroAddress,
          Some (errorsJoin [(CheckDecode address).2; (DecodeGeneric address).2;
                            Some unifiedDecodedErr]))
  | Panicked => Panicked
  | OutOfFuel => OutOfFuel
  end.
Proof.
  unfold bech32Passes, DecodeAddress.
  destruct (CheckDecode address) as [[decoded base58Version] base58Error].
  destruct (DecodeGeneric address)
    as [[[humanReadablePrefix data5] bech32Version] bech32Error].
  cbn [snd]. intros [e ->] Hpasses.
  destruct bech32Error as [e'|]; [done|].
  destruct Hpasses as [[? [=]]|[(-> & Htex & Hr1)|[(-> & Hsapling)|[HM H0]]]].
  - rewrite decide_True by done. by rewrite !decide_False by done.
  - rewrite decide_False by done. rewrite decide_True by done.
    by rewrite decide_False by done.
  - by rewrite !decide_False by done.
Qed.

Lemma DecodeAddress_P2pkh_intro (address : string) (network : Network)
    (p : list byte) :
  base58Payload address (p2pkhLead network) p →
  DecodeAddress address network = Ok (constructors.P2pkh p, None).
Proof.
  intros [Hcheck Hlen]. unfold DecodeAddress. rewrite Hcheck.
  destruct (DecodeGeneric address) as [[[h d] v] e].
  unfold leadMatches. rewrite decide_True by done.
  rewrite !bool_decide_eq_true_2 by (done || (cbn [length]; lia)).
  cbn [andb bind]. change (drop 1 (?x :: p)) with p. by rewrite copyInto_length.
Qed.

Lemma DecodeAddress_P2sh_intro (address : string) (network : Network)
    (p : list byte) :
  base58Payload address (p2shLead network) p →
  p2shLead network ≠ p2pkhLead network →
  DecodeAddress address network = Ok (constructors.P2sh p, None).
Proof.
  intros [Hcheck Hlen] Hleads. unfold DecodeAddress. rewrite Hcheck.
  destruct (DecodeGeneric address) as [[[h d] v] e].
  assert (leadMatches (p2shLead network).1 ((p2shLead network).2 :: p)
            (p2pkhLead network) = Ok false) as ->.
  { unfold leadMatches. case_decide as H1; [|done].
    rewrite bool_decide_eq_false_2; [done|].
    intros H2. apply Hleads.
    destruct (p2shLead network), (p2pkhLead network). cbn in *. congruence. }
  cbn [bind].
  unfold leadMatches. rewrite decide_True by done.
  rewrite !bool_decide_eq_true_2 by (done || (cbn [length]; lia)).
  cbn [andb bind]. change (drop 1 (?x :: p)) with p. by rewrite copyInto_length.
Qed.

(** Where a transparent field of the result comes from. *)
Lemma DecodeAddress_transparent_inv (address : string) (network : Network)
    (r : ZcashAddress) (e : option error) :
  DecodeAddress address network = Ok (r, e) →
  (∀ p, P2pkh r = Some p →
     base58Payload address (p2pkhLead network) p
     ∧ r = constructors.P2pkh p ∧ e = None)
  ∧ (∀ p, P2sh r = Some p →
       base58Payload address (p2shLead network) p
       ∧ p2shLead network ≠ p2pkhLead network
       ∧ r = constructors.P2sh p ∧ e = None).
Proof.
  unfold DecodeAddress, base58Payload.
  destruct (CheckDecode address) as [[decoded base58Version] base58Error].
  destruct (DecodeGeneric address)
    as [[[humanReadablePrefix data5] bech32Version] bech32Error].
  match goal with
  | |- context [match bech32Error with Some _ => ?v | None => _ end] =>
      set (us := v)
  end.
  assert (Hus : ∀ r e, us = Ok (r, e) → P2pkh r = None ∧ P2sh r = None).
  { unfold us. intros r' e'.
    destruct (unifiedaddress.DecodeUnified address (unifiedHRP network));
      by intros [= <- <-]. }
  clearbody us.
  match goal with
  | |- context [match base58Error with Some _ => ?v | None => _ end] =>
      set (bs := v)
  end.
  assert (Hbs : ∀ r e, bs = Ok (r, e) → P2pkh r = None ∧ P2sh r = None).
  { unfold bs. destruct bech32Error; [done|].
    destruct (ConvertBits data5 5 8 true); repeat case_decide; try done;
      by intros r' e' [= <- <-]. }
  clearbody bs.
  assert (Hnone : bs = Ok (r, e) →
    (∀ p, P2pkh r = Some p →
       ((decoded, base58Version, base58Error)
        = ((p2pkhLead network).2 :: p, (p2pkhLead network).1, None)
        ∧ length p = 20%nat) ∧ r = constructors.P2pkh p ∧ e = None)
    ∧ (∀ p, P2sh r = Some p →
         ((decoded, base58Version, base58Error)
          = ((p2shLead network).2 :: p, (p2shLead network).1, None)
          ∧ length p = 20%nat)
         ∧ p2shLead network ≠ p2pkhLead network
         ∧ r = constructors.P2sh p ∧ e = None)).
  { intros [Hpkh Hsh]%Hbs. rewrite Hpkh, Hsh. by split. }
  destruct base58Error; [done|]. clear Hnone.
  destruct (leadMatches base58Version decoded (p2pkhLead network))
    as [[|]| | |] eqn:Hpkh; cbn [bind]; try done.
  { intros [= <- <-]. cbn [P2pkh P2sh]. split; [|done]. intros p [= <-].
    unfold leadMatches in Hpkh. case_decide as Hv; [|done].
    destruct decoded as [|d0 tl]; [done|]. injection Hpkh as Hpkh.
    apply andb_true_iff in Hpkh as [Hd0%bool_decide_eq_true Htl%bool_decide_eq_true].
    cbn [length] in Htl. change (drop 1 (d0 :: tl)) with tl.
    rewrite copyInto_length by lia. subst. split; [split; [done|lia]|done]. }
  destruct (leadMatches base58Version decoded (p2shLead network))
    as [[|]| | |] eqn:Hsh; cbn [bind]; try done;
    [|intros [Hp Hs]%Hbs; rewrite Hp, Hs; by split].
  intros [= <- <-]. cbn [P2pkh P2sh]. split; [done|]. intros p [= <-].
  unfold leadMatches in Hsh. case_decide as Hv; [|done].
  destruct decoded as [|d0 tl]; [done|]. injection Hsh as Hsh.
  apply andb_true_iff in Hsh as [Hd0%bool_decide_eq_true Htl%bool_decide_eq_true].
  cbn [length] in Htl. change (drop 1 (d0 :: tl)) with tl.
  rewrite copyInto_length by lia. subst.
  split; [split; [done|lia]|]. split; [|done].
  intros Hleads. unfold leadMatches in Hpkh. rewrite Hleads in Hpkh.
  rewrite decide_True in Hpkh by done.
  rewrite !bool_decide_eq_true_2 in Hpkh by (done || (cbn [length]; lia)).
  done.
Qed.

(** X21. [DecodeAddress] returns a P2PKH address exactly when the
    base58check decoding succeeds with the two lead bytes of the network
    followed by 20 bytes, whatever the bech32 decoders say; it returns a
    P2SH address exactly when the same holds for the P2SH lead bytes and
    they differ from the P2PKH ones. The results are those the
    constructors [P2pkh] and [P2sh] build from the 20 bytes. *)
Theorem DecodeAddress_transparent (address : string) (network : Network)
    (p : list byte) :
  (DecodeAddress address network = Ok (constructors.P2pkh p, None)
   ↔ base58Payload address (p2pkhLead network) p)
  ∧ (DecodeAddress address network = Ok (constructors.P2sh p, None)
     ↔ base58Payload address (p2shLead network) p
       ∧ p2shLead network ≠ p2pkhLead network).
Proof.
  split; split.
  - intros [Hpkh _]%DecodeAddress_transparent_inv. by apply Hpkh.
  - apply DecodeAddress_P2pkh_intro.
  - intros [_ Hsh]%DecodeAddress_transparent_inv.
    destruct (Hsh p) as (? & ? & _); done.
  - intros [? ?]. by apply DecodeAddress_P2sh_intro.
Qed.

(** X22. When the base58check decoding succeeds with an empty payload and
    a version byte equal to the first lead byte of the network's P2PKH or
    P2SH addresses, reading [decoded[0]] panics: [DecodeAddress] and the
    four accessors return nothing. *)
Theorem DecodeAddress_empty_payload (address : string) (network : Network)
    (version : byte) :
  CheckDecode address = ([], version, None) →
  version = (p2pkhLead network).1 ∨ version = (p2shLead network).1 →
  DecodeAddress address network = Panicked
  ∧ (∀ allowTex, DecodeP2pkh address network allowTex = Panicked)
  ∧ DecodeP2sh address network = Panicked
  ∧ DecodeSapling address network = Panicked
  ∧ DecodeOrchard address network = Panicked.
Proof.
  intros Hcheck Hversion.
  assert (Hpanic : DecodeAddress address network = Panicked).
  { unfold DecodeAddress. rewrite Hcheck.
    destruct (DecodeGeneric address) as [[[h d] v] e].
    unfold leadMatches.
    destruct (decide (version = (p2pkhLead network).1)); [done|].
    cbn [bind]. destruct Hversion as [?|Hsh]; [done|].
    by rewrite decide_True. }
  unfold DecodeP2pkh, DecodeP2sh, DecodeSapling, DecodeOrchard.
  by rewrite Hpanic.
Qed.

(** X23. A string that base58check rejects and whose bech32 decoding
    selects no branch is decided by [DecodeUnified] under the unified
    prefix of the network: its address is returned as the [Unified] field,
    and the four accessors return the receivers of that address. *)
Theorem DecodeAddress_unified (address : string) (network : Network)
    (u : unifiedaddress.UnifiedAddress) :
  is_Some (CheckDecode address).2 →
  bech32Passes address network →
  unifiedaddress.DecodeUnified address (unifiedHRP network) = Ok u →
  DecodeAddress address network = Ok (constructors.Unified u, None)
  ∧ (∀ allowTex,
       DecodeP2pkh address network allowTex = Ok (unifiedaddress.P2pkh u, None))
  ∧ DecodeP2sh address network = Ok (unifiedaddress.P2sh u, None)
  ∧ DecodeSapling address network = Ok (unifiedaddress.Sapling u, None)
  ∧ DecodeOrchard address network = Ok (unifiedaddress.Orchard u, None).
Proof.
  intros Hbase58 Hbech32 Hunified.
  assert (Hdecode : DecodeAddress address network
                    = Ok (constructors.Unified u, None)).
  { rewrite DecodeAddress_bech32Passes by done. by rewrite Hunified. }
  unfold DecodeP2pkh, DecodeP2sh, DecodeSapling, DecodeOrchard.
  rewrite Hdecode. cbn.
  split; [done|]. split; [|split; [|split; [|done]]].
  - intros allowTex. by destruct (unifiedaddress.P2pkh u).
  - by destruct (unifiedaddress.P2sh u).
  - by destruct (unifiedaddress.Sapling u).
Qed.

(** X24. When every stage fails, [DecodeAddress] returns the zero value
    of the struct with the three errors joined in the order base58,
    bech32, unified. *)
Theorem DecodeAddress_all_fail (address : string) (network : Network)
    (base58Error bech32Error unifiedError : error) :
  (CheckDecode address).2 = Some base58Error →
  (DecodeGeneric address).2 = Some bech32Error →
  unifiedaddress.DecodeUnified address (unifiedHRP network) = Err unifiedError →
  DecodeAddress address network
  = Ok (zeroAddress, Some (ErrJoin [base58Error; bech32Error; unifiedError])).
Proof.
  intros Hbase58 Hbech32 Hunified.
  rewrite DecodeAddress_bech32Passes.
  - by rewrite Hunified, Hbase58, Hbech32.
  - by rewrite Hbase58.
  - unfold bech32Passes. destruct (DecodeGeneric address) as [[[h d] v] e].
    cbn [snd] in Hbech32. left. by rewrite Hbech32.
Qed.

(** X25. The test network and the regression-test network share the lead
    bytes of P2SH addresses: a string decodes to a P2SH address on one
    exactly when it does on the other, with the same 20 bytes. *)
Theorem Testnet_Regtest_P2sh (address : string) (p : list byte) :
  DecodeAddress address Testnet = Ok (constructors.P2sh p, None)
  ↔ DecodeAddress address Regtest = Ok (constructors.P2sh p, None).
Proof.
  split; intros [_ Hsh]%DecodeAddress_transparent_inv;
    destruct (Hsh p) as (Hpayload & _); try done;
    by apply DecodeAddress_P2sh_intro.
Qed.

(** X26. Every address [DecodeAddress] returns without an error is one
    the constructors build: a [P2pkh], [P2sh] or [Tex] of 20 bytes, a
    [Sapling] of 43 bytes, or a [Unified]. *)
Theorem DecodeAddress_constructed (address : string) (network : Network)
    (r : ZcashAddress) :
  DecodeAddress address network = Ok (r, None) →
  (∃ p, r = constructors.P2pkh p ∧ length p = 20%nat)
  ∨ (∃ p, r = constructors.P2sh p ∧ length p = 20%nat)
  ∨ (∃ p, r = constructors.Sapling p ∧ length p = 43%nat)
  ∨ (∃ p, r = constructors.Tex p ∧ length p = 20%nat)
  ∨ (∃ u, r = constructors.Unified u).
Proof.
  unfold DecodeAddress.
  destruct (CheckDecode address) as [[decoded base58Version] base58Error].
  destruct (DecodeGeneric address)
    as [[[humanReadablePrefix data5] bech32Version] bech32Error].
  match goal with
  | |- context [match bech32Error with Some _ => ?v | None => _ end] =>
      set (us := v)
  end.
  match goal with
  | |- _ → ?G => assert (Hus : us = Ok (r, None) → G)
  end.
  { unfold us.
    destruct (unifiedaddress.DecodeUnified address (unifiedHRP network));
      intros [= <-]. do 4 right. by eexists. }
  clearbody us.
  match goal with
  | |- context [match base58Error with Some _ => ?v | None => _ end] =>
      set (bs := v)
  end.
  match goal with
  | |- _ → ?G => assert (Hbs : bs = Ok (r, None) → G)
  end.
  { unfold bs. destruct bech32Error; [done|].
    destruct (ConvertBits data5 5 8 true); repeat case_decide; try done;
      intros [= <-].
    - do 3 right; left. eexists. split; [done|]. apply length_copyInto.
    - do 2 right; left. eexists. split; [done|]. apply length_copyInto. }
  clearbody bs.
  destruct base58Error; [done|].
  destruct (leadMatches base58Version decoded (p2pkhLead network)) as [[|]| | |];
    cbn [bind]; try done.
  { intros [= <-]. left. eexists. split; [done|]. apply length_copyInto. }
  destruct (leadMatches base58Version decoded (p2shLead network)) as [[|]| | |];
    cbn [bind]; try done.
  intros [= <-]. right; left. eexists. split; [done|]. apply length_copyInto.
Qed.

End dispatcher_stages.

Lemma DecodeAddress_empty_payload_witness :
  zcashaddress.DecodeAddress (C := simple.collaborators)
    emptyPayloadString zcashaddress.Mainnet = Panicked.
Proof.
  apply (DecodeAddress_empty_payload (C := simple.collaborators)
           emptyPayloadString zcashaddress.Mainnet x1c);
    [by vm_compute|by left].
Defined.

Lemma DecodeAddress_unified_witness :
  zcashaddress.DecodeAddress (C := simple.collaborators)
    saplingOnlyString zcashaddress.Mainnet
  = Ok (constructors.Unified examples.saplingOnly, None).
Proof.
  apply (DecodeAddress_unified (C := simple.collaborators)
           saplingOnlyString zcashaddress.Mainnet examples.saplingOnly).
  - vm_compute. by eexists.
  - vm_compute. right; left. by split.
  - by vm_compute.
Defined.

Lemma DecodeAddress_all_fail_witness :
  ∃ e1 e2 e3,
    zcashaddress.DecodeAddress (C := simple.collaborators) "zcash" zcashaddress.Mainnet
    = Ok (zcashaddress.zeroAddress, Some (ErrJoin [e1; e2; e3])).
Proof.
  eexists _, _, _.
  apply (DecodeAddress_all_fail (C := simple.collaborators) "zcash" zcashaddress.Mainnet);
    reflexivity.
Defined.

Lemma DecodeAddress_constructed_witness :
  ∃ p, texAddress = constructors.Tex p ∧ length p = 20%nat.
Proof.
  destruct (DecodeAddress_constructed (C := simple.collaborators)
              texString zcashaddress.Mainnet texAddress)
    as [(p & Hp & _)|[(p & Hp & _)|[(p & Hp & _)|[Htex|[u Hu]]]]];
    [by vm_compute|done..|exact Htex|done].
Defined.
